(** * kompose: the Kubernetes transformer's helper passes

    A shallow embedding of [pkg/transformer/kubernetes/k8sutils.go] and of the
    pod-spec option builders (AddContainer, SecurityContext, SetVolumes,
    configProbe, ...), followed by the properties of the passes.

    Conventions of the embedding.
    - A Go [string] is a Rocq [string]: a sequence of bytes. [len] is
      [String.length], [s[0]] the first byte.
    - Go's [int] is taken to be 64 bits wide (amd64, arm64); [int32(x)] is
      written out as the two's-complement wrap-around [int32].
    - A [map[string]string] is a [gmap string string]; indexing a missing
      key yields the zero value, the empty string.
    - A panic or a returned error is an explicit result, never a stuck term.
    - The object list [*[]runtime.Object] is a list of values; each entry
      stands for a distinct heap object, written through its pointer. *)

From Stdlib Require Import ZArith String Ascii List Lia Bool.
From stdpp Require Import base option list gmap strings sorting.

Local Open Scope string_scope.
Local Open Scope Z_scope.
Local Open Scope list_scope.

#[local] Set Warnings "-clear-no-such-hyp".

(** ** Part I: the embedding *)

(** *** Go built-ins and standard-library functions used by the code *)

Module Go.

(** [int32(x)] for a 64-bit [x]: keep the low 32 bits, read as signed. *)
Definition int32 (x : Z) : Z := (x + 2 ^ 31) mod 2 ^ 32 - 2 ^ 31.

Definition minInt64 : Z := - 2 ^ 63.
Definition maxInt64 : Z := 2 ^ 63 - 1.

Definition isDigit (c : ascii) : bool :=
  (48 <=? Z.of_nat (nat_of_ascii c)) && (Z.of_nat (nat_of_ascii c) <=? 57).

Definition digitVal (c : ascii) : Z := Z.of_nat (nat_of_ascii c) - 48.

(** The digits of a decimal literal, most significant first. [None] on
    any byte that is not a decimal digit. *)
Fixpoint parseDigits (acc : Z) (s : string) : option Z :=
  match s with
  | EmptyString => Some acc
  | String c rest =>
      if isDigit c then parseDigits (10 * acc + digitVal c) rest else None
  end.

(** [strconv.ParseInt(s, 10, 64)]: an optional sign, then one or more
    decimal digits; the value must fit in a signed 64-bit integer.
    [None] stands for a non-nil error (syntax or range). *)
Definition ParseInt64 (s : string) : option Z :=
  match s with
  | EmptyString => None
  | String c rest =>
      let neg := bool_decide (c = "-"%char) in
      let body := if bool_decide (c = "-"%char) || bool_decide (c = "+"%char)
                  then rest else s in
      match body with
      | EmptyString => None
      | _ =>
          match parseDigits 0 body with
          | None => None
          | Some n =>
              let v := if neg then - n else n in
              if (minInt64 <=? v) && (v <=? maxInt64) then Some v else None
          end
      end
  end.

(** [strconv.Atoi(s)] is [ParseInt(s, 10, 0)] converted to [int]. *)
Definition Atoi (s : string) : option Z := ParseInt64 s.

(** [strings.Contains(s, substr)]. *)
Fixpoint Contains (s substr : string) : bool :=
  if String.prefix substr s then true
  else match s with
       | EmptyString => false
       | String _ rest => Contains rest substr
       end.

(** [strings.Split(s, ":")]: the pieces between the colons; always at
    least one piece. *)
Fixpoint SplitColon (s : string) : list string :=
  match s with
  | EmptyString => [EmptyString]
  | String c rest =>
      if bool_decide (c = ":"%char) then EmptyString :: SplitColon rest
      else match SplitColon rest with
           | piece :: pieces => String c piece :: pieces
           | [] => [String c EmptyString]
           end
  end.

(** [strings.Trim(s, "./")]: drop leading and trailing bytes that are
    ['.'] or ['/']. *)
Definition inCutset (c : ascii) : bool :=
  bool_decide (c = "."%char) || bool_decide (c = "/"%char).

Fixpoint TrimLeft (s : string) : string :=
  match s with
  | EmptyString => EmptyString
  | String c rest => if inCutset c then TrimLeft rest else s
  end.

Fixpoint TrimRight (s : string) : string :=
  match s with
  | EmptyString => EmptyString
  | String c rest =>
      match TrimRight rest with
      | EmptyString => if inCutset c then EmptyString else String c EmptyString
      | kept => String c kept
      end
  end.

Definition Trim (s : string) : string := TrimRight (TrimLeft s).

(** [s[0:n]] for [n <= len(s)]; the callers check the bound. *)
Fixpoint slicePrefix (n : nat) (s : string) : string :=
  match n, s with
  | S n', String c rest => String c (slicePrefix n' rest)
  | _, _ => EmptyString
  end.

End Go.

(** *** Horizontal pod autoscaler values *)

(** Default values for Horizontal Pod Autoscaler (HPA). *)
Definition DefaultMinReplicas : Z := 1.
Definition DefaultMaxReplicas : Z := 3.
Definition DefaultCPUUtilization : Z := 50.
Definition DefaultMemoryUtilization : Z := 70.

(** The label keys [compose.LabelHpa*] are declared in the compose loader
    package; the functions below take them as a parameter. *)
Record HpaLabelKeys := {
  LabelHpaCPU : string;
  LabelHpaMemory : string;
  LabelHpaMinReplicas : string;
  LabelHpaMaxReplicas : string
}.

Record HpaValues := {
  MinReplicas : Z;
  MaxReplicas : Z;
  CPUtilization : Z;
  MemoryUtilization : Z
}.

(** [m[k]] on a Go map of strings. *)
Definition labelOf (labels : gmap string string) (k : string) : string :=
  default EmptyString (labels !! k).

(** getHpaValue converts the label value to integer; if the label is not
    present or the conversion fails it returns the provided default. *)
Definition getHpaValue (labels : gmap string string) (label : string)
    (defaultValue : Z) : Z :=
  match Go.Atoi (labelOf labels label) with
  | None => defaultValue
  | Some valueFromLabel =>
      if valueFromLabel <? 0 then defaultValue else Go.int32 valueFromLabel
  end.

Definition validatePercentageMetric (labels : gmap string string)
    (metricLabel : string) (defaultValue : Z) : Z :=
  let metricValue := getHpaValue labels metricLabel defaultValue in
  if (metricValue >? 100) || (metricValue <? 1) then defaultValue
  else metricValue.

Definition getResourceHpaValues (K : HpaLabelKeys)
    (labels : gmap string string) : HpaValues :=
  let minReplicas := getHpaValue labels (LabelHpaMinReplicas K) DefaultMinReplicas in
  let maxReplicas := getHpaValue labels (LabelHpaMaxReplicas K) DefaultMaxReplicas in
  let maxReplicas := if maxReplicas <? minReplicas then minReplicas else maxReplicas in
  let cpuUtilization :=
    validatePercentageMetric labels (LabelHpaCPU K) DefaultCPUUtilization in
  let memoryUtilization :=
    validatePercentageMetric labels (LabelHpaMemory K) DefaultMemoryUtilization in
  {| MinReplicas := minReplicas;
     MaxReplicas := maxReplicas;
     CPUtilization := cpuUtilization;
     MemoryUtilization := memoryUtilization |}.

Inductive ResourceName := ResourceCPU | ResourceMemory.

(** One [hpa.MetricSpec]: type Resource, target type Utilization. *)
Record MetricSpec := {
  metricResource : ResourceName;
  AverageUtilization : Z
}.

Definition getHpaMetricSpec (hpaValues : HpaValues) : list MetricSpec :=
  let metrics := [] in
  let metrics :=
    if CPUtilization hpaValues >? 0
    then metrics ++ [ {| metricResource := ResourceCPU;
                         AverageUtilization := CPUtilization hpaValues |} ]
    else metrics in
  let metrics :=
    if MemoryUtilization hpaValues >? 0
    then metrics ++ [ {| metricResource := ResourceMemory;
                         AverageUtilization := MemoryUtilization hpaValues |} ]
    else metrics in
  metrics.

Record HorizontalPodAutoscaler := {
  hpaKind : string;
  hpaAPIVersion : string;
  hpaName : string;
  ScaleTargetKind : string;
  ScaleTargetName : string;
  ScaleTargetAPIVersion : string;
  hpaMinReplicas : Z;
  hpaMaxReplicas : Z;
  Metrics : list MetricSpec
}.

(** createHPAResources; the second component is the replica count it
    writes back into the service (the autoscaler owns it from here on). *)
Definition createHPAResources (K : HpaLabelKeys) (name : string)
    (labels : gmap string string) : HorizontalPodAutoscaler * Z :=
  let valuesHpa := getResourceHpaValues K labels in
  let metrics := getHpaMetricSpec valuesHpa in
  ({| hpaKind := "HorizontalPodAutoscaler";
      hpaAPIVersion := "autoscaling/v2";
      hpaName := name;
      ScaleTargetKind := "Deployment";
      ScaleTargetName := name;
      ScaleTargetAPIVersion := "apps/v1";
      hpaMinReplicas := MinReplicas valuesHpa;
      hpaMaxReplicas := MaxReplicas valuesHpa;
      Metrics := metrics |}, 0).

(** *** The Kubernetes API objects the passes read and write

    Only the fields the code under study touches are kept. *)

(** [schema.GroupVersionKind], as returned by
    [obj.GetObjectKind().GroupVersionKind()]. *)
Record GroupVersionKind := {
  Group : string;
  Version : string;
  Kind : string
}.

(** [GroupVersionKind.String()]. *)
Definition GroupVersionKind_String (gvk : GroupVersionKind) : string :=
  Group gvk +:+ "/" +:+ Version gvk +:+ ", Kind=" +:+ Kind gvk.

Record ObjectMeta := {
  Name : string;
  Namespace : string;
  Annotations : list (string * string)
}.

Record VolumeMount := {
  vmName : string;
  MountPath : string;
  vmReadOnly : bool
}.

Record Volume := {
  vName : string;
  VolumeSource : string
}.

Record Capabilities := {
  Add : list string;
  Drop : list string
}.

(** [api.SecurityContext]: every field is a pointer, [None] is nil. *)
Record SecurityContextT := {
  Privileged : option bool;
  RunAsUser : option Z;
  RunAsGroup : option Z;
  scCapabilities : option Capabilities;
  ReadOnlyRootFilesystem : option bool
}.

Record PodSecurityContext := {
  SupplementalGroups : option (list Z);
  FSGroup : option Z
}.

Record ExecAction := { Command : list string }.
Record HTTPGetAction := { Path : string; httpPort : Z }.
Record TCPSocketAction := { tcpPort : Z }.

(** [api.Probe] with its embedded [ProbeHandler]. *)
Record Probe := {
  Exec : option ExecAction;
  HTTPGet : option HTTPGetAction;
  TCPSocket : option TCPSocketAction;
  GRPC : option Z;
  TimeoutSeconds : Z;
  PeriodSeconds : Z;
  FailureThreshold : Z;
  InitialDelaySeconds : Z
}.

Record Container := {
  cName : string;
  Image : string;
  VolumeMounts : list VolumeMount;
  cSecurityContext : option SecurityContextT;
  LivenessProbe : option Probe;
  ReadinessProbe : option Probe
}.

Record PodSpec := {
  Volumes : list Volume;
  Containers : list Container;
  SecurityContext_ : option PodSecurityContext
}.

Record PodTemplateSpec := {
  templateLabels : list (string * string);
  Spec : PodSpec
}.

Record PersistentVolumeClaim := {
  pvcAPIVersion : string;
  pvcKind : string;
  pvcName : string
}.

(** A [runtime.Object]. The constructor is the dynamic Go type, which the
    type switches test; the kind string of [gvk] is what [GetObjectKind]
    reports, which the sort and the duplicate filter read. *)
Inductive Object :=
  | Deployment (gvk : GroupVersionKind) (meta : ObjectMeta)
      (strategy : string) (template : PodTemplateSpec)
  | DeploymentConfig (gvk : GroupVersionKind) (meta : ObjectMeta)
      (strategy : string) (template : PodTemplateSpec)
  | StatefulSet (gvk : GroupVersionKind) (meta : ObjectMeta)
      (VolumeClaimTemplates : list PersistentVolumeClaim)
      (template : PodTemplateSpec)
  | DaemonSet (gvk : GroupVersionKind) (meta : ObjectMeta)
      (template : PodTemplateSpec)
  | Pod (gvk : GroupVersionKind) (meta : ObjectMeta) (spec : PodSpec)
  (** Service, ConfigMap, PersistentVolumeClaim, HorizontalPodAutoscaler,
      NetworkPolicy, ...: carries object metadata, is no controller. *)
  | Resource (gvk : GroupVersionKind) (meta : ObjectMeta)
  (** A [runtime.Object] that does not implement [metav1.Object]. *)
  | Opaque (gvk : GroupVersionKind).

#[global] Instance GroupVersionKind_eq_dec : EqDecision GroupVersionKind.
Proof. solve_decision. Defined.
#[global] Instance ObjectMeta_eq_dec : EqDecision ObjectMeta.
Proof. solve_decision. Defined.
#[global] Instance VolumeMount_eq_dec : EqDecision VolumeMount.
Proof. solve_decision. Defined.
#[global] Instance Volume_eq_dec : EqDecision Volume.
Proof. solve_decision. Defined.
#[global] Instance Capabilities_eq_dec : EqDecision Capabilities.
Proof. solve_decision. Defined.
#[global] Instance SecurityContextT_eq_dec : EqDecision SecurityContextT.
Proof. solve_decision. Defined.
#[global] Instance PodSecurityContext_eq_dec : EqDecision PodSecurityContext.
Proof. solve_decision. Defined.
#[global] Instance ExecAction_eq_dec : EqDecision ExecAction.
Proof. solve_decision. Defined.
#[global] Instance HTTPGetAction_eq_dec : EqDecision HTTPGetAction.
Proof. solve_decision. Defined.
#[global] Instance TCPSocketAction_eq_dec : EqDecision TCPSocketAction.
Proof. solve_decision. Defined.
#[global] Instance Probe_eq_dec : EqDecision Probe.
Proof. solve_decision. Defined.
#[global] Instance Container_eq_dec : EqDecision Container.
Proof. solve_decision. Defined.
#[global] Instance PodSpec_eq_dec : EqDecision PodSpec.
Proof. solve_decision. Defined.
#[global] Instance PodTemplateSpec_eq_dec : EqDecision PodTemplateSpec.
Proof. solve_decision. Defined.
#[global] Instance PersistentVolumeClaim_eq_dec : EqDecision PersistentVolumeClaim.
Proof. solve_decision. Defined.
(** [reflect.DeepEqual] on two objects of the list. *)
#[global] Instance Object_eq_dec : EqDecision Object.
Proof. solve_decision. Defined.

Definition objGVK (obj : Object) : GroupVersionKind :=
  match obj with
  | Deployment gvk _ _ _ | DeploymentConfig gvk _ _ _ | StatefulSet gvk _ _ _
  | DaemonSet gvk _ _ | Pod gvk _ _ | Resource gvk _ | Opaque gvk => gvk
  end.

(** The [obj.(metav1.Object)] assertion: [None] when it fails. *)
Definition objMeta (obj : Object) : option ObjectMeta :=
  match obj with
  | Deployment _ meta _ _ | DeploymentConfig _ meta _ _ | StatefulSet _ meta _ _
  | DaemonSet _ meta _ | Pod _ meta _ | Resource _ meta => Some meta
  | Opaque _ => None
  end.

(** *** SortServicesFirst and RemoveDupObjects *)

Definition isServiceKind (obj : Object) : bool :=
  bool_decide (Kind (objGVK obj) = "Service").

(** SortServicesFirst - the objects that we get can be in any order, this
    keeps services first. The loop fills the two slices [svc] and
    [others]; the result is their concatenation. *)
Definition SortServicesFirst (objs : list Object) : list Object :=
  let '(svc, others) :=
    fold_left (fun '(svc, others) obj =>
                 if isServiceKind obj then (svc ++ [obj], others)
                 else (svc, others ++ [obj]))
              objs ([], []) in
  ([] ++ svc) ++ others.

(** The key [k] of the map [exist] (here [existK]: [exist] is taken). *)
Definition dupKey (obj : Object) (us : ObjectMeta) : string :=
  GroupVersionKind_String (objGVK obj) +:+ Namespace us +:+ Name us.

(** One iteration of the loop of RemoveDupObjects on [(result, exist)]. *)
Definition removeDupStep (st : list Object * gmap string bool) (obj : Object)
    : list Object * gmap string bool :=
  let '(result, existK) := st in
  match objMeta obj with
  | Some us =>
      let k := dupKey obj us in
      if default false (existK !! k) then (result, existK)
      else (result ++ [obj], <[k := true]> existK)
  | None => (result ++ [obj], existK)
  end.

(** RemoveDupObjects removes objects that are dups. *)
Definition RemoveDupObjects (objs : list Object) : list Object :=
  fst (fold_left removeDupStep objs ([], ∅)).

(** *** fixNetworkModeToService *)

Definition NetworkModeService : string := "service:".

Record DeploymentMapping := {
  SourceDeploymentName : string;
  TargetDeploymentName : string
}.

#[global] Instance DeploymentMapping_eq_dec : EqDecision DeploymentMapping.
Proof. solve_decision. Defined.

(** The fields of [kobject.ServiceConfig] read by the code below. *)
Record ServiceConfig := {
  svcName : string;
  NetworkMode : string;
  Labels : gmap string string;
  svcVolumes : list string;
  User : string;
  svcPrivileged : bool;
  ReadOnly : bool;
  GroupAdd : option (list Z);
  FsGroup : Z;
  Pid : string
}.

(** searchNetworkModeToService. [services] lists the entries of the Go
    map in the order the [range] loop happens to visit them. *)
Definition searchNetworkModeToService (services : list ServiceConfig)
    : list DeploymentMapping :=
  fold_left
    (fun deploymentMappings service =>
       if negb (Go.Contains (NetworkMode service) NetworkModeService)
       then deploymentMappings
       else match Go.SplitColon (NetworkMode service) with
            | _ :: target :: _ =>
                deploymentMappings ++
                  [ {| SourceDeploymentName := svcName service;
                       TargetDeploymentName := target |} ]
            | _ => deploymentMappings
            end)
    services [].

(** The object is an [appsv1.Deployment] and its [ObjectMeta.Name] is [name]. *)
Definition isDeploymentNamed (name : string) (obj : Object) : bool :=
  match obj with
  | Deployment _ meta _ _ => bool_decide (Name meta = name)
  | _ => false
  end.

Definition deploymentContainers (obj : Object) : list Container :=
  match obj with
  | Deployment _ _ _ template => Containers (Spec template)
  | _ => []
  end.

(** [deploy.Spec.Template.Spec.Containers = append(..., containersToAppend...)]. *)
Definition appendContainers (containersToAppend : list Container)
    (obj : Object) : Object :=
  match obj with
  | Deployment gvk meta strategy template =>
      Deployment gvk meta strategy
        {| templateLabels := templateLabels template;
           Spec := {| Volumes := Volumes (Spec template);
                      Containers := Containers (Spec template) ++ containersToAppend;
                      SecurityContext_ := SecurityContext_ (Spec template) |} |}
  | _ => obj
  end.

(** addContainersToTargetDeployment appends the containers to every
    deployment of the list whose name matches. *)
Definition addContainersToTargetDeployment (objects : list Object)
    (containersToAppend : list Container) (nameDeploymentToTransfer : string)
    : list Object :=
  map (fun obj => if isDeploymentNamed nameDeploymentToTransfer obj
                  then appendContainers containersToAppend obj else obj)
      objects.

(** The [range] loop of addContainersFromSourceToTargetDeployment visits
    the indices in [idxs]; the object at an index is read when the loop
    gets there, after the writes of the earlier iterations. *)
Fixpoint addContainersFromSourceLoop (idxs : list nat) (objects : list Object)
    (currentDeploymentMap : DeploymentMapping) : list Object :=
  match idxs with
  | [] => objects
  | i :: idxs' =>
      let objects' :=
        match objects !! i with
        | Some obj =>
            if isDeploymentNamed (SourceDeploymentName currentDeploymentMap) obj
            then addContainersToTargetDeployment objects
                   (deploymentContainers obj)
                   (TargetDeploymentName currentDeploymentMap)
            else objects
        | None => objects
        end in
      addContainersFromSourceLoop idxs' objects' currentDeploymentMap
  end.

Definition addContainersFromSourceToTargetDeployment (objects : list Object)
    (currentDeploymentMap : DeploymentMapping) : list Object :=
  addContainersFromSourceLoop (seq 0 (length objects)) objects currentDeploymentMap.

Definition mergeContainersIntoDestinationDeployment
    (deploymentMappings : list DeploymentMapping) (objects : list Object)
    : list Object :=
  fold_left addContainersFromSourceToTargetDeployment deploymentMappings objects.

(** removeFromSlice removes the first object deeply equal to
    [objectToRemove]. *)
Fixpoint removeFromSlice (objects : list Object) (objectToRemove : Object)
    : list Object :=
  match objects with
  | [] => []
  | currentObject :: rest =>
      if decide (currentObject = objectToRemove) then rest
      else currentObject :: removeFromSlice rest objectToRemove
  end.

(** The loop of removeTargetDeployment, which counts [i] down from the
    last index to 0, entered with [n = i + 1]. [None] is the
    index-out-of-range panic of reading the slice at [i]. *)
Fixpoint removeTargetDeploymentLoop (n : nat) (objects : list Object)
    (targetDeploymentName : string) : option (list Object) :=
  match n with
  | O => Some objects
  | S i =>
      match objects !! i with
      | None => None
      | Some obj =>
          removeTargetDeploymentLoop i
            (if isDeploymentNamed targetDeploymentName obj
             then removeFromSlice objects obj else objects)
            targetDeploymentName
      end
  end.

Definition removeTargetDeployment (objects : list Object)
    (targetDeploymentName : string) : option (list Object) :=
  removeTargetDeploymentLoop (length objects) objects targetDeploymentName.

Fixpoint removeDeploymentTransfered (deploymentMappings : list DeploymentMapping)
    (objects : list Object) : option (list Object) :=
  match deploymentMappings with
  | [] => Some objects
  | currentDeploymentMap :: rest =>
      match removeTargetDeployment objects
              (SourceDeploymentName currentDeploymentMap) with
      | None => None
      | Some objects' => removeDeploymentTransfered rest objects'
      end
  end.

Definition fixNetworkModeToService (objects : list Object)
    (services : list ServiceConfig) : option (list Object) :=
  let deploymentMappings := searchNetworkModeToService services in
  if bool_decide (length deploymentMappings = 0%nat) then Some objects
  else removeDeploymentTransfered deploymentMappings
         (mergeContainersIntoDestinationDeployment deploymentMappings objects).

(** *** The update strategy set by the controller update loops *)

Definition RecreateDeploymentStrategyType : string := "Recreate".
Definition DeploymentStrategyTypeRecreate : string := "Recreate".


(** The same switch in UpdateKubernetesObjectsMultipleContainers: it has
    no StatefulSet case. *)
Definition adjustForVolumesMultipleContainers (obj : Object) : Object :=
  match obj with
  | Deployment gvk meta _ template =>
      Deployment gvk meta RecreateDeploymentStrategyType template
  | DeploymentConfig gvk meta _ template =>
      DeploymentConfig gvk meta DeploymentStrategyTypeRecreate template
  | _ => obj
  end.

(** The loop under the comment "update supported controller".
    [UpdateController] (defined next to the transformer, with both filler
    closures already applied) is a parameter: it returns the object as it
    left it and the error, if any. [adjust] is the type switch. On an
    error the loop returns at once: the objects after the failing one are
    not visited. *)
Fixpoint updateSupportedController
    (UpdateController : Object -> Object * option string)
    (hasVolumes : bool) (adjust : Object -> Object) (objects : list Object)
    : list Object * option string :=
  match objects with
  | [] => ([], None)
  | obj :: rest =>
      match UpdateController obj with
      | (obj', Some err) => (obj' :: rest, Some ("k.UpdateController failed: " +:+ err))
      | (obj', None) =>
          let obj'' := if hasVolumes then adjust obj' else obj' in
          let '(rest', err) :=
            updateSupportedController UpdateController hasVolumes adjust rest in
          (obj'' :: rest', err)
      end
  end.






(** *** The user directive and the security context *)

Definition emptySecurityContext : SecurityContextT :=
  {| Privileged := None; RunAsUser := None; RunAsGroup := None;
     scCapabilities := None; ReadOnlyRootFilesystem := None |}.

Definition setRunAsUser (uid : Z) (sc : SecurityContextT) : SecurityContextT :=
  {| Privileged := Privileged sc; RunAsUser := Some uid;
     RunAsGroup := RunAsGroup sc; scCapabilities := scCapabilities sc;
     ReadOnlyRootFilesystem := ReadOnlyRootFilesystem sc |}.

Definition setRunAsGroup (gid : Z) (sc : SecurityContextT) : SecurityContextT :=
  {| Privileged := Privileged sc; RunAsUser := RunAsUser sc;
     RunAsGroup := Some gid; scCapabilities := scCapabilities sc;
     ReadOnlyRootFilesystem := ReadOnlyRootFilesystem sc |}.

(** The block [if service.User != ""] with its switch on the number of
    colon-separated parts; the same text appears in the SecurityContext
    option and in the template filler of UpdateKubernetesObjects. A
    warning is logged wherever the context is returned as it came. *)
Definition userDirective (user : string) (securityContext : SecurityContextT)
    : SecurityContextT :=
  if bool_decide (user = EmptyString) then securityContext
  else
    match Go.SplitColon user with
    | [uidPart] =>
        match Go.ParseInt64 uidPart with
        | None => securityContext
        | Some uid => setRunAsUser uid securityContext
        end
    | [uidPart; gidPart] =>
        let securityContext :=
          match Go.ParseInt64 uidPart with
          | None => securityContext
          | Some uid => setRunAsUser uid securityContext
          end in
        match Go.ParseInt64 gidPart with
        | None => securityContext
        | Some gid => setRunAsGroup gid securityContext
        end
    | _ => securityContext
    end.

Definition podSecurityContextOf (service : ServiceConfig) : PodSecurityContext :=
  {| SupplementalGroups := GroupAdd service;
     FSGroup := if bool_decide (FsGroup service = 0) then None
                else Some (FsGroup service) |}.

Definition withCapabilities (capabilities : Capabilities)
    (sc : SecurityContextT) : SecurityContextT :=
  if bool_decide (0 < length (Add capabilities))%nat
     || bool_decide (0 < length (Drop capabilities))%nat
  then {| Privileged := Privileged sc; RunAsUser := RunAsUser sc;
          RunAsGroup := RunAsGroup sc; scCapabilities := Some capabilities;
          ReadOnlyRootFilesystem := ReadOnlyRootFilesystem sc |}
  else sc.

(** The container security context built by the SecurityContext option.
    [capabilities] is the result of ConfigCapabilities. *)
Definition securityContextOf (service : ServiceConfig)
    (capabilities : Capabilities) : SecurityContextT :=
  let securityContext :=
    if svcPrivileged service
    then {| Privileged := Some true; RunAsUser := None; RunAsGroup := None;
            scCapabilities := None; ReadOnlyRootFilesystem := None |}
    else emptySecurityContext in
  let securityContext := userDirective (User service) securityContext in
  withCapabilities capabilities securityContext.

(** The same in the template filler of UpdateKubernetesObjects, which
    also sets the read-only root file system. *)
Definition securityContextOfTemplate (service : ServiceConfig)
    (capabilities : Capabilities) : SecurityContextT :=
  let securityContext := securityContextOf service capabilities in
  if ReadOnly service
  then {| Privileged := Privileged securityContext;
          RunAsUser := RunAsUser securityContext;
          RunAsGroup := RunAsGroup securityContext;
          scCapabilities := scCapabilities securityContext;
          ReadOnlyRootFilesystem := Some true |}
  else securityContext.

Definition setContainerSecurityContext (sc : SecurityContextT) (c : Container)
    : Container :=
  {| cName := cName c; Image := Image c; VolumeMounts := VolumeMounts c;
     cSecurityContext := Some sc;
     LivenessProbe := LivenessProbe c; ReadinessProbe := ReadinessProbe c |}.

(** Attaching the two contexts: the container context goes to
    [Containers[0]] only if it is not the zero value (that write panics,
    [None], on a pod without containers); likewise the pod context. *)
Definition attachSecurityContexts (securityContext : SecurityContextT)
    (podSecurityContext : PodSecurityContext) (podSpec : PodSpec)
    : option PodSpec :=
  let withContainer :=
    if bool_decide (securityContext = emptySecurityContext) then Some (Containers podSpec)
    else match Containers podSpec with
         | [] => None
         | c :: cs => Some (setContainerSecurityContext securityContext c :: cs)
         end in
  match withContainer with
  | None => None
  | Some containers =>
      Some {| Volumes := Volumes podSpec;
              Containers := containers;
              SecurityContext_ :=
                if bool_decide (podSecurityContext =
                                {| SupplementalGroups := None; FSGroup := None |})
                then SecurityContext_ podSpec
                else Some podSecurityContext |}
  end.

(** SecurityContext configures the security context of a pod spec. *)
Definition SecurityContext (service : ServiceConfig)
    (capabilities : Capabilities) (podSpec : PodSpec) : option PodSpec :=
  attachSecurityContexts (securityContextOf service capabilities)
    (podSecurityContextOf service) podSpec.

(** *** configProbe *)

(** Modelled from the spec: the declaration of [kobject.HealthCheck] is
    not among the sources; a health-check descriptor has the exec, HTTP
    and TCP variants, and these are the fields configProbe reads. [Test]
    is a slice: [None] is the nil slice, which [reflect.DeepEqual] tells
    apart from an empty one. *)
Record HealthCheck := {
  Test : option (list string);
  Timeout : Z;
  Interval : Z;
  Retries : Z;
  StartPeriod : Z;
  Disable : bool;
  HTTPPath : string;
  TCPPort : Z;
  HTTPPort : Z
}.

#[global] Instance HealthCheck_eq_dec : EqDecision HealthCheck.
Proof. solve_decision. Defined.

(** [kobject.HealthCheck{}]. *)
Definition blankHealthCheck : HealthCheck :=
  {| Test := None; Timeout := 0; Interval := 0; Retries := 0;
     StartPeriod := 0; Disable := false; HTTPPath := EmptyString;
     TCPPort := 0; HTTPPort := 0 |}.

Definition testCommand (healthCheck : HealthCheck) : list string :=
  default [] (Test healthCheck).

Inductive ProbeResult :=
  | ProbeNil
  | ProbeOf (probe : Probe)
  | ProbePanic (msg : string).

Definition probeWith (healthCheck : HealthCheck) (exec : option ExecAction)
    (http : option HTTPGetAction) (tcp : option TCPSocketAction) : Probe :=
  {| Exec := exec; HTTPGet := http; TCPSocket := tcp; GRPC := None;
     TimeoutSeconds := Timeout healthCheck;
     PeriodSeconds := Interval healthCheck;
     FailureThreshold := Retries healthCheck;
     InitialDelaySeconds := StartPeriod healthCheck |}.

Definition configProbe (healthCheck : HealthCheck) : ProbeResult :=
  (* We check to see if it's blank or disable *)
  if bool_decide (healthCheck = blankHealthCheck) || Disable healthCheck
  then ProbeNil
  else if bool_decide (0 < length (testCommand healthCheck))%nat
  then ProbeOf (probeWith healthCheck
                  (Some {| Command := testCommand healthCheck |}) None None)
  else if negb (bool_decide (HTTPPath healthCheck = EmptyString))
          && negb (bool_decide (HTTPPort healthCheck = 0))
  then ProbeOf (probeWith healthCheck None
                  (Some {| Path := HTTPPath healthCheck;
                           httpPort := Go.int32 (HTTPPort healthCheck) |}) None)
  else if negb (bool_decide (TCPPort healthCheck = 0))
  then ProbeOf (probeWith healthCheck None None
                  (Some {| tcpPort := Go.int32 (TCPPort healthCheck) |}))
  else ProbePanic "Health check must contain a command".

(** How many of the three handlers a probe carries. *)
Definition handlerCount (probe : Probe) : nat :=
  ((if Exec probe is Some _ then 1 else 0)
   + (if HTTPGet probe is Some _ then 1 else 0)
   + (if TCPSocket probe is Some _ then 1 else 0))%nat.

(** *** SetVolumes and SetVolumeMounts *)

(** SetVolumeNames returns the set of volume names. *)
Definition SetVolumeNames (volumes : list Volume) : gset string :=
  list_to_set (map vName volumes).

(** The inner loop with its [break]: the first volume of that name. *)
Definition firstVolumeNamed (volumes : list Volume) (name : string)
    : option Volume :=
  find (fun volume => bool_decide (vName volume = name)) volumes.

Definition appendVolume (podSpec : PodSpec) (volume : Volume) : PodSpec :=
  {| Volumes := Volumes podSpec ++ [volume];
     Containers := Containers podSpec;
     SecurityContext_ := SecurityContext_ podSpec |}.

(** The body of SetVolumes once the iterator of the difference set
    yields the names in the order [iter]. *)
Definition SetVolumesIter (iter : list string) (volumes : list Volume)
    (podSpec : PodSpec) : PodSpec :=
  fold_left (fun podSpec diffVolumeName =>
               match firstVolumeNamed volumes diffVolumeName with
               | Some volume => appendVolume podSpec volume
               | None => podSpec
               end)
            iter podSpec.

(** SetVolumes adds the volumes to the pod spec. The set iterator yields
    the members of the difference in an order of its own choosing, so
    the option is a relation between the pod spec before and after. *)
Definition SetVolumes (volumes : list Volume) (podSpec podSpec' : PodSpec)
    : Prop :=
  exists iter : list string,
    iter ≡ₚ elements (SetVolumeNames volumes ∖ SetVolumeNames (Volumes podSpec))
    /\ podSpec' = SetVolumesIter iter volumes podSpec.

(** SetVolumeMountPaths returns the set of volume mount paths. *)
Definition SetVolumeMountPaths (volumesMount : list VolumeMount) : gset string :=
  list_to_set (map MountPath volumesMount).

Definition firstMountAt (volumesMount : list VolumeMount) (path : string)
    : option VolumeMount :=
  find (fun volumeMount => bool_decide (MountPath volumeMount = path)) volumesMount.

Definition appendVolumeMount (c : Container) (volumeMount : VolumeMount)
    : Container :=
  {| cName := cName c; Image := Image c;
     VolumeMounts := VolumeMounts c ++ [volumeMount];
     cSecurityContext := cSecurityContext c;
     LivenessProbe := LivenessProbe c; ReadinessProbe := ReadinessProbe c |}.

Definition SetVolumeMountsIter (iter : list string)
    (volumesMount : list VolumeMount) (c : Container) : Container :=
  fold_left (fun c diffVolumeMountPath =>
               match firstMountAt volumesMount diffVolumeMountPath with
               | Some volumeMount => appendVolumeMount c volumeMount
               | None => c
               end)
            iter c.

(** What SetVolumeMounts does to one container. *)
Definition SetVolumeMountsContainer (volumesMount : list VolumeMount)
    (c c' : Container) : Prop :=
  exists iter : list string,
    iter ≡ₚ elements (SetVolumeMountPaths volumesMount
                       ∖ SetVolumeMountPaths (VolumeMounts c))
    /\ c' = SetVolumeMountsIter iter volumesMount c.

(** SetVolumeMounts adds the volume mounts to every container. *)
Definition SetVolumeMounts (volumesMount : list VolumeMount)
    (podSpec podSpec' : PodSpec) : Prop :=
  exists containers' : list Container,
    Forall2 (SetVolumeMountsContainer volumesMount) (Containers podSpec) containers'
    /\ podSpec' = {| Volumes := Volumes podSpec;
                     Containers := containers';
                     SecurityContext_ := SecurityContext_ podSpec |}.

(** *** FormatEnvName *)

Definition byteOf (c : ascii) : nat := nat_of_ascii c.

Definition byteIn (lo hi : nat) (c : ascii) : bool :=
  (lo <=? byteOf c)%nat && (byteOf c <=? hi)%nat.

(** The number of bytes [utf8.DecodeRuneInString] consumes at the head of
    a non-empty string: the length of a well-formed encoding, and 1 for
    a byte that starts none. *)
Definition runeWidth (s : string) : nat :=
  match s with
  | EmptyString => 0
  | String b0 rest =>
      if byteIn 194 223 b0 then
        match rest with
        | String b1 _ => if byteIn 128 191 b1 then 2 else 1
        | _ => 1
        end
      else if byteIn 224 239 b0 then
        match rest with
        | String b1 (String b2 _) =>
            if byteIn (if bool_decide (byteOf b0 = 224%nat) then 160 else 128)
                      (if bool_decide (byteOf b0 = 237%nat) then 159 else 191) b1
               && byteIn 128 191 b2
            then 3 else 1
        | _ => 1
        end
      else if byteIn 240 244 b0 then
        match rest with
        | String b1 (String b2 (String b3 _)) =>
            if byteIn (if bool_decide (byteOf b0 = 240%nat) then 144 else 128)
                      (if bool_decide (byteOf b0 = 244%nat) then 143 else 191) b1
               && byteIn 128 191 b2 && byteIn 128 191 b3
            then 4 else 1
        | _ => 1
        end
      else 1
  end.

Definition isAlnum (c : ascii) : bool :=
  byteIn 97 122 c || byteIn 65 90 c || byteIn 48 57 c.

(** [regexp.MustCompile(`[^a-zA-Z0-9]`).ReplaceAllString(s, "-")]: every
    rune other than an ASCII letter or digit becomes one dash. [skip]
    counts the remaining bytes of the rune being replaced. *)
Fixpoint replaceNonAlnum (skip : nat) (s : string) : string :=
  match s with
  | EmptyString => EmptyString
  | String c rest =>
      match skip with
      | S skip' => replaceNonAlnum skip' rest
      | O =>
          if isAlnum c then String c (replaceNonAlnum 0 rest)
          else String "-"%char (replaceNonAlnum (runeWidth s - 1) rest)
      end
  end.

(** getUsableNameEnvFile checks and adjusts the environment file name to
    make it usable. [None] is the index-out-of-range panic of
    [envName[0]]. *)
Definition getUsableNameEnvFile (envName serviceName : string) : option string :=
  match envName with
  | EmptyString => None
  | String c0 _ =>
      let envName :=
        if bool_decide (c0 = "-"%char) then serviceName +:+ envName
        else envName in
      let envName :=
        if bool_decide (63 < String.length envName)%nat
        then Go.slicePrefix 63 envName else envName in
      Some envName
  end.

(** FormatEnvName format env name. *)
Definition FormatEnvName (name serviceName : string) : option string :=
  let envName := Go.Trim name in
  let envName := replaceNonAlnum 0 envName in
  getUsableNameEnvFile envName serviceName.

(** *** Notions used in the statements of Part II *)

(** What a label denotes before it is narrowed to 32 bits: the parsed
    integer, or the default when the label is missing, malformed or
    negative. *)
Definition parsedOrDefault (labels : gmap string string) (label : string)
    (d : Z) : Z :=
  match Go.Atoi (labelOf labels label) with
  | Some v => if v <? 0 then d else v
  | None => d
  end.

Definition fitsInt32 (labels : gmap string string) (label : string) : Prop :=
  forall v, Go.Atoi (labelOf labels label) = Some v -> v < 2 ^ 31.

Definition notServiceKind (obj : Object) : bool := negb (isServiceKind obj).

(** The field a segment of the user directive leaves behind: its value
    when it parses, the previous content otherwise. *)
Definition segmentOr (segment : string) (previous : option Z) : option Z :=
  match Go.ParseInt64 segment with
  | Some id => Some id
  | None => previous
  end.

Definition noCapabilities : Capabilities := {| Add := []; Drop := [] |}.

(** The key RemoveDupObjects files an object under, if it has metadata. *)
Definition objKey (obj : Object) : option string :=
  dupKey obj <$> objMeta obj.

(** The identity of an object: what the key is built from. *)
Definition objIdentity (obj : Object)
    : option (GroupVersionKind * string * string) :=
  (fun us => (objGVK obj, Namespace us, Name us)) <$> objMeta obj.

Definition keyOfIdentity (id : GroupVersionKind * string * string) : string :=
  GroupVersionKind_String id.1.1 +:+ id.1.2 +:+ id.2.

(** [exist[k]] on the Go map of booleans. *)
Definition seenKey (existK : gmap string bool) (k : string) : bool :=
  default false (existK !! k).

(** The objects the loop of RemoveDupObjects appends when it starts with
    the map [existK]. *)
Fixpoint dedupFrom (existK : gmap string bool) (objs : list Object)
    : list Object :=
  match objs with
  | [] => []
  | obj :: rest =>
      match objKey obj with
      | Some k =>
          if seenKey existK k then dedupFrom existK rest
          else obj :: dedupFrom (<[k := true]> existK) rest
      | None => obj :: dedupFrom existK rest
      end
  end.

(** The filter as the claim words it, over the identity the key is built
    from. An object is the first of its identity when no object in front
    of it has that identity; an object without metadata has no identity
    and counts as a first one. [before] lists every object in front of
    [obj], dropped or not. *)
Definition firstOfItsIdentity (before : list Object) (obj : Object) : bool :=
  match objIdentity obj with
  | Some id => bool_decide (Some id ∉ objIdentity <$> before)
  | None => true
  end.

(** Keep the first object of each identity, drop the later ones. *)
Fixpoint keepFirstOfEachIdentity (before objs : list Object) : list Object :=
  match objs with
  | [] => []
  | obj :: rest =>
      (if firstOfItsIdentity before obj then [obj] else [])
      ++ keepFirstOfEachIdentity (before ++ [obj]) rest
  end.

(** Whether two objects of the list that are filed under one key always
    have one identity, as a test. *)
Definition keysUnambiguousb (L : list Object) : bool :=
  forallb (fun o1 =>
             forallb (fun o2 =>
                        implb (bool_decide (objKey o1 = objKey o2))
                              (bool_decide (objIdentity o1 = objIdentity o2)))
                     L)
          L.

(** The target a service declares to join, as searchNetworkModeToService
    reads it off the network mode. *)
Definition joinTarget (service : ServiceConfig) : option string :=
  if negb (Go.Contains (NetworkMode service) NetworkModeService) then None
  else match Go.SplitColon (NetworkMode service) with
       | _ :: target :: _ => Some target
       | _ => None
       end.

Definition mappingOf (service : ServiceConfig) : option DeploymentMapping :=
  (fun target => {| SourceDeploymentName := svcName service;
                    TargetDeploymentName := target |}) <$> joinTarget service.

(** The containers of the deployments called [name], in list order. *)
Fixpoint sourceContainers (name : string) (objs : list Object)
    : list Container :=
  match objs with
  | [] => []
  | obj :: rest =>
      (if isDeploymentNamed name obj then deploymentContainers obj else [])
      ++ sourceContainers name rest
  end.

(** One list of objects extends another when it has the same objects
    with containers appended. *)
Definition extends (objs objs' : list Object) : Prop :=
  Forall2 (fun obj obj' => exists cs, obj' = appendContainers cs obj) objs objs'.

(** The object is not a deployment called [name]. *)
Definition notDeploymentNamed (name : string) (obj : Object) : bool :=
  negb (isDeploymentNamed name obj).

(** The name consists of dots and slashes only. *)
Fixpoint onlyDotsAndSlashes (s : string) : bool :=
  match s with
  | EmptyString => true
  | String c rest => Go.inCutset c && onlyDotsAndSlashes rest
  end.

(** *** Sample inputs used by the examples below *)

(** A controller adapter whose metadata filler writes the annotations
    and whose template filler fails on objects named [bad]. *)
Definition setAnnotations (annotations : list (string * string))
    (obj : Object) : Object :=
  let fill meta := {| Name := Name meta; Namespace := Namespace meta;
                      Annotations := annotations |} in
  match obj with
  | Deployment gvk meta strategy template =>
      Deployment gvk (fill meta) strategy template
  | DeploymentConfig gvk meta strategy template =>
      DeploymentConfig gvk (fill meta) strategy template
  | StatefulSet gvk meta vct template => StatefulSet gvk (fill meta) vct template
  | DaemonSet gvk meta template => DaemonSet gvk (fill meta) template
  | Pod gvk meta spec => Pod gvk (fill meta) spec
  | _ => obj
  end.

Definition sampleUpdateController (obj : Object) : Object * option string :=
  (setAnnotations [("kompose.cmd", "kompose convert")] obj,
   if bool_decide (Name <$> objMeta obj = Some "bad")
   then Some "Unknown restart policy" else None).

Definition sampleVolume (name : string) : Volume :=
  {| vName := name; VolumeSource := "emptyDir" |}.


(** The label keys as the compose loader spells them. *)
Definition sampleKeys : HpaLabelKeys :=
  {| LabelHpaCPU := "kompose.hpa.cpu";
     LabelHpaMemory := "kompose.hpa.memory";
     LabelHpaMinReplicas := "kompose.hpa.replicas.min";
     LabelHpaMaxReplicas := "kompose.hpa.replicas.max" |}.

Definition gvkDeployment : GroupVersionKind :=
  {| Group := "apps"; Version := "v1"; Kind := "Deployment" |}.
Definition gvkService : GroupVersionKind :=
  {| Group := EmptyString; Version := "v1"; Kind := "Service" |}.
Definition gvkConfigMap : GroupVersionKind :=
  {| Group := EmptyString; Version := "v1"; Kind := "ConfigMap" |}.

Definition metaOf (name namespace : string) : ObjectMeta :=
  {| Name := name; Namespace := namespace; Annotations := [] |}.

Definition sampleContainer (name : string) : Container :=
  {| cName := name; Image := name; VolumeMounts := [];
     cSecurityContext := None; LivenessProbe := None; ReadinessProbe := None |}.

Definition podSpecOf (containers : list Container) : PodSpec :=
  {| Volumes := []; Containers := containers; SecurityContext_ := None |}.

Definition sampleDeployment (name : string) (containers : list Container)
    : Object :=
  Deployment gvkDeployment (metaOf name EmptyString) "RollingUpdate"
    {| templateLabels := []; Spec := podSpecOf containers |}.

Definition sampleService (name networkMode : string) : ServiceConfig :=
  {| svcName := name; NetworkMode := networkMode; Labels := ∅;
     svcVolumes := []; User := EmptyString; svcPrivileged := false;
     ReadOnly := false; GroupAdd := None; FsGroup := 0; Pid := EmptyString |}.

(** *** Further functions of the transformer *)

(** The object is no deployment named after the source of a mapping. *)
Definition notSource (ms : list DeploymentMapping) (obj : Object) : bool :=
  forallb (fun m => notDeploymentNamed (SourceDeploymentName m) obj) ms.

Fixpoint noColon (s : string) : bool :=
  match s with
  | EmptyString => true
  | String c rest => negb (bool_decide (c = ":"%char)) && noColon rest
  end.

(** LabelKeys are the keys for HPA related labels in the service. *)
Definition LabelKeys (K : HpaLabelKeys) : list string :=
  [ LabelHpaCPU K; LabelHpaMemory K; LabelHpaMinReplicas K;
    LabelHpaMaxReplicas K ].

(** searchHPAValues checks if labels contains any label related to the
    Horizontal Pod Autoscaler. *)
Definition searchHPAValues (K : HpaLabelKeys) (labels : gmap string string)
    : bool :=
  existsb (fun value => bool_decide (is_Some (labels !! value))) (LabelKeys K).

(** *** Names *)

Fixpoint allBytes (p : ascii -> bool) (s : string) : bool :=
  match s with
  | EmptyString => true
  | String c rest => p c && allBytes p rest
  end.

Fixpoint anyByte (p : ascii -> bool) (s : string) : bool :=
  match s with
  | EmptyString => false
  | String c rest => p c || anyByte p rest
  end.

Definition isByte (b : ascii) (c : ascii) : bool := bool_decide (c = b).

(** A letter, a digit or a dash. *)
Definition isAlnumOrDash (c : ascii) : bool := isAlnum c || isByte "-" c.

(** [strings.Replace(name, "_", "-", -1)]. *)
Fixpoint replaceUnderscores (s : string) : string :=
  match s with
  | EmptyString => EmptyString
  | String c rest =>
      String (if bool_decide (c = "_"%char) then "-"%char else c)
             (replaceUnderscores rest)
  end.

(** FormatContainerName format Container name. *)
Definition FormatContainerName (name : string) : string :=
  replaceUnderscores name.

(** GetContainerName returns the name of the container, from the service
    config object. [containerName] is [service.ContainerName]. *)
Definition GetContainerName (service : ServiceConfig) (containerName : string)
    : string :=
  let name := svcName service in
  let name := if bool_decide (0 < String.length containerName)%nat
              then containerName else name in
  FormatContainerName name.

(** The second result of [path.Split]: what follows the last slash, the
    whole path if it has none. *)
Fixpoint pathSplitFile (path : string) : string :=
  match path with
  | EmptyString => EmptyString
  | String c rest =>
      if anyByte (isByte "/") rest then pathSplitFile rest
      else if bool_decide (c = "/"%char) then rest else path
  end.

(** FormatFileName format file name. *)
Definition FormatFileName (name : string) : string :=
  let file := pathSplitFile name in
  replaceUnderscores file.






(** *** Grouping services *)

(** [kobject.ServiceConfig] with the two further fields the grouping
    reads and writes: the list of volume mount identifiers and the
    grouping flag. *)
Record GroupedService := {
  gsConfig : ServiceConfig;
  VolList : list string;
  InGroup : bool
}.

(** The zero value, which indexing a Go map yields for a missing key. *)
Definition zeroGroupedService : GroupedService :=
  {| gsConfig := {| svcName := EmptyString; NetworkMode := EmptyString;
                    Labels := ∅; svcVolumes := []; User := EmptyString;
                    svcPrivileged := false; ReadOnly := false;
                    GroupAdd := None; FsGroup := 0; Pid := EmptyString |};
     VolList := []; InGroup := false |}.

(** getServiceVolumesID create a unique id for the service's volume
    mounts. *)
Definition getServiceVolumesID (service : GroupedService) : string :=
  fold_left (fun id v => id +:+ v) (VolList service) EmptyString.

(** getServiceGroupID: the empty string means this service should go
    alone. [labelServiceGroup] is the constant [compose.LabelServiceGroup]. *)
Definition getServiceGroupID (labelServiceGroup : string)
    (service : GroupedService) (mode : string) : string :=
  if bool_decide (mode = "label")
  then labelOf (Labels (gsConfig service)) labelServiceGroup
  else if bool_decide (mode = "volume") then getServiceVolumesID service
  else EmptyString.

(** SortedKeys ensures the kubernetes objects are in a consistent order.
    [iter] lists the keys in the order the [range] loop over the map
    yields them; [sort.Strings] puts them in ascending byte order. *)
Definition SortedKeys (iter : list string) : list string :=
  merge_sort String.le iter.

(** [serviceConfig.Name = service; serviceConfig.InGroup = true]. *)
Definition markGrouped (service : string) (serviceConfig : GroupedService)
    : GroupedService :=
  {| gsConfig :=
       {| svcName := service;
          NetworkMode := NetworkMode (gsConfig serviceConfig);
          Labels := Labels (gsConfig serviceConfig);
          svcVolumes := svcVolumes (gsConfig serviceConfig);
          User := User (gsConfig serviceConfig);
          svcPrivileged := svcPrivileged (gsConfig serviceConfig);
          ReadOnly := ReadOnly (gsConfig serviceConfig);
          GroupAdd := GroupAdd (gsConfig serviceConfig);
          FsGroup := FsGroup (gsConfig serviceConfig);
          Pid := Pid (gsConfig serviceConfig) |};
     VolList := VolList serviceConfig;
     InGroup := true |}.

(** One iteration of the loop of KomposeObjectToServiceConfigGroupMapping
    on the pair of the group map being built and the service map. *)
Definition groupStep (labelServiceGroup mode : string)
    (st : gmap string (list GroupedService) * gmap string GroupedService)
    (service : string)
    : gmap string (list GroupedService) * gmap string GroupedService :=
  let '(serviceConfigGroup, ServiceConfigs) := st in
  let serviceConfig := default zeroGroupedService (ServiceConfigs !! service) in
  let groupID := getServiceGroupID labelServiceGroup serviceConfig mode in
  if bool_decide (groupID = EmptyString) then st
  else
    let serviceConfig := markGrouped service serviceConfig in
    (<[groupID := default [] (serviceConfigGroup !! groupID) ++ [serviceConfig]]>
       serviceConfigGroup,
     <[service := serviceConfig]> ServiceConfigs).

(** KomposeObjectToServiceConfigGroupMapping returns the service config
    group by name or by volume, and the service map it has updated in
    place. [mode] is [opt.ServiceGroupMode]. *)
Definition KomposeObjectToServiceConfigGroupMapping
    (labelServiceGroup mode : string) (iter : list string)
    (ServiceConfigs : gmap string GroupedService)
    : gmap string (list GroupedService) * gmap string GroupedService :=
  let sortedServiceConfigs := SortedKeys iter in
  fold_left (groupStep labelServiceGroup mode) sortedServiceConfigs
    (∅, ServiceConfigs).

(** The members of group [g] among the services [keys]: those whose
    group identifier is [g], marked as grouped. *)
Definition groupMembers (labelServiceGroup mode : string)
    (ServiceConfigs : gmap string GroupedService) (g : string)
    (keys : list string) : list GroupedService :=
  omap (fun service =>
          match ServiceConfigs !! service with
          | Some serviceConfig =>
              if bool_decide
                   (getServiceGroupID labelServiceGroup serviceConfig mode = g)
              then Some (markGrouped service serviceConfig) else None
          | None => None
          end)
       keys.

(** The service under key [k] has a group identifier. *)
Definition isGrouped (labelServiceGroup mode : string)
    (ServiceConfigs : gmap string GroupedService) (k : string) : bool :=
  match ServiceConfigs !! k with
  | Some serviceConfig =>
      negb (bool_decide
              (getServiceGroupID labelServiceGroup serviceConfig mode
               = EmptyString))
  | None => false
  end.

(** *** removeEmptyInterfaces *)

(** What [yaml.Unmarshal] hands to removeEmptyInterfaces: an
    [interface{}] that is nil, a slice of such, a map from strings to
    such, or a value of another dynamic type (string, number, bool). The
    entries of a map carry distinct keys. *)
#[local] Set Warnings "-register-all".
Inductive Value :=
  | VNil
  | VScalar (s : string)
  | VSlice (v : list Value)
  | VMap (m : list (string * Value)).

(** How a call ends; [OutOfFuel] belongs to the embedding only. *)
Inductive Outcome (A : Type) :=
  | Returned (a : A)
  | Panicked
  | OutOfFuel.
Arguments Returned {A} a.
Arguments Panicked {A}.
Arguments OutOfFuel {A}.

(** The test of the slice loop: an empty map or nil. *)
Definition isEmptyEntry (val : Value) : bool :=
  match val with
  | VNil | VMap [] => true
  | _ => false
  end.

(** The [range] loop over a slice. The loop runs over the slice header
    it started with: [arr] is the backing array, whose length is the
    number of iterations; [len] is the current length of the variable
    [v], which shares that array. [append(v[:i], v[i+1:]...)] moves the
    elements behind [i] one place down inside the array and shortens
    [v] by one; it panics when [i+1] exceeds [len]. The assignment to
    [v[i]] panics when [i] is not below [len]. *)
Fixpoint sliceLoop (rec : Value -> Outcome Value) (remaining i : nat)
    (arr : list Value) (len : nat) : Outcome (list Value * nat) :=
  match remaining with
  | O => Returned (arr, len)
  | S remaining' =>
      match arr !! i with
      | None => Panicked
      | Some val =>
          if isEmptyEntry val then
            if bool_decide (i + 1 <= len)%nat then
              sliceLoop rec remaining' (S i)
                (take i arr ++ drop (S i) (take len arr) ++ drop (len - 1) arr)
                (len - 1)
            else Panicked
          else
            match rec val with
            | Returned val' =>
                if bool_decide (i < len)%nat
                then sliceLoop rec remaining' (S i) (<[i := val']> arr) len
                else Panicked
            | Panicked => Panicked
            | OutOfFuel => OutOfFuel
            end
      end
  end.

(** The [range] loop over a map: every entry is visited once; [None]
    deletes the key. *)
Definition mapEntry (rec : Value -> Outcome Value) (val : Value)
    : Outcome (option Value) :=
  match val with
  | VMap _ =>
      match rec val with
      | Returned (VMap valMap) =>
          Returned (if bool_decide (length valMap = 0%nat) then None
                    else Some (VMap valMap))
      | Returned _ => Panicked
      | Panicked => Panicked
      | OutOfFuel => OutOfFuel
      end
  | VNil => Returned None
  | _ =>
      match rec val with
      | Returned processedInterface =>
          Returned (match processedInterface with
                    | VSlice [] => None
                    | _ => Some processedInterface
                    end)
      | Panicked => Panicked
      | OutOfFuel => OutOfFuel
      end
  end.

Fixpoint mapLoop (rec : Value -> Outcome Value) (entries : list (string * Value))
    : Outcome (list (string * Value)) :=
  match entries with
  | [] => Returned []
  | (k, val) :: rest =>
      match mapEntry rec val with
      | Returned kept =>
          match mapLoop rec rest with
          | Returned rest' =>
              Returned (match kept with
                        | Some val' => (k, val') :: rest'
                        | None => rest'
                        end)
          | Panicked => Panicked
          | OutOfFuel => OutOfFuel
          end
      | Panicked => Panicked
      | OutOfFuel => OutOfFuel
      end
  end.

(** removeEmptyInterfaces removes empty maps and nil from the object. The
    recursion is bounded by [fuel]; the nesting depth of the object plus
    one suffices. *)
Fixpoint removeEmptyInterfaces (fuel : nat) (obj : Value) : Outcome Value :=
  match fuel with
  | O => OutOfFuel
  | S fuel' =>
      match obj with
      | VSlice v =>
          match sliceLoop (removeEmptyInterfaces fuel') (length v) 0 v (length v) with
          | Returned (arr, len) => Returned (VSlice (take len arr))
          | Panicked => Panicked
          | OutOfFuel => OutOfFuel
          end
      | VMap m =>
          match mapLoop (removeEmptyInterfaces fuel') m with
          | Returned m' => Returned (VMap m')
          | Panicked => Panicked
          | OutOfFuel => OutOfFuel
          end
      | _ => Returned obj
      end
  end.

(** The nesting depth of an object. *)
Fixpoint depth (obj : Value) : nat :=
  match obj with
  | VSlice v => S (foldr (fun val d => Nat.max (depth val) d) 0%nat v)
  | VMap m => S (foldr (fun entry d => Nat.max (depth entry.2) d) 0%nat m)
  | _ => 0%nat
  end.

(** The calls on the elements of a slice, one after the other. *)
Fixpoint processAll (rec : Value -> Outcome Value) (v : list Value)
    : Outcome (list Value) :=
  match v with
  | [] => Returned []
  | val :: rest =>
      match rec val with
      | Returned val' =>
          match processAll rec rest with
          | Returned rest' => Returned (val' :: rest')
          | Panicked => Panicked
          | OutOfFuel => OutOfFuel
          end
      | Panicked => Panicked
      | OutOfFuel => OutOfFuel
      end
  end.

Definition isReturned {A} (o : Outcome A) : bool :=
  match o with Returned _ => true | _ => false end.

(** ** Part II: properties *)

(** *** Autoscaler values *)

Lemma int32_small (x : Z) : - 2 ^ 31 <= x < 2 ^ 31 -> Go.int32 x = x.
Proof.
  intros Hx. unfold Go.int32.
  rewrite Z.mod_small by lia. lia.
Qed.

(** A label that does not parse, or parses to a negative number, gives the
    default. *)
Lemma getHpaValue_parse_failure labels label d :
  Go.Atoi (labelOf labels label) = None -> getHpaValue labels label d = d.
Proof. intros H. unfold getHpaValue. by rewrite H. Qed.

Lemma getHpaValue_negative labels label d v :
  Go.Atoi (labelOf labels label) = Some v -> v < 0 ->
  getHpaValue labels label d = d.
Proof.
  intros H Hv. unfold getHpaValue. rewrite H.
  destruct (Z.ltb_spec v 0); [done | lia].
Qed.

(** A non-negative label value that fits in 32 bits is returned as it is. *)
Lemma getHpaValue_in_range labels label d v :
  Go.Atoi (labelOf labels label) = Some v -> 0 <= v < 2 ^ 31 ->
  getHpaValue labels label d = v.
Proof.
  intros H Hv. unfold getHpaValue. rewrite H.
  destruct (Z.ltb_spec v 0); [lia |]. apply int32_small. lia.
Qed.

(** Whatever the label holds, the validated percentage lies in [1, 100]
    as soon as the default does. *)
Lemma validatePercentageMetric_range labels label d :
  1 <= d <= 100 -> 1 <= validatePercentageMetric labels label d <= 100.
Proof.
  intros Hd. unfold validatePercentageMetric.
  destruct (Z.gtb_spec (getHpaValue labels label d) 100); simpl; [lia |].
  destruct (Z.ltb_spec (getHpaValue labels label d) 1); simpl; lia.
Qed.

(** The maximum is never below the minimum. *)
Lemma getResourceHpaValues_max_ge_min K labels :
  MinReplicas (getResourceHpaValues K labels)
  <= MaxReplicas (getResourceHpaValues K labels).
Proof.
  unfold getResourceHpaValues; simpl.
  destruct (Z.ltb_spec (getHpaValue labels (LabelHpaMaxReplicas K) DefaultMaxReplicas)
                       (getHpaValue labels (LabelHpaMinReplicas K) DefaultMinReplicas)); lia.
Qed.

(** The two examples of the HPA clamp. *)
Example hpa_clamp_max_to_min :
  MaxReplicas (getResourceHpaValues sampleKeys
    (<["kompose.hpa.replicas.min" := "5"]>
       (<["kompose.hpa.replicas.max" := "2"]> ∅))) = 5.
Proof. vm_compute. reflexivity. Qed.

Example hpa_cpu_150_reverts :
  CPUtilization (getResourceHpaValues sampleKeys
    (<["kompose.hpa.cpu" := "150"]> ∅)) = 50.
Proof. vm_compute. reflexivity. Qed.

(** C3. The memory label 4294967346 parses to an integer far outside
    [1, 100], yet the derived memory utilization is 50 and not the default
    70: the value is narrowed to 32 bits before it is range-checked, and
    4294967346 = 2^32 + 50. In the same way a minimum-replicas label of
    2147483648 yields a negative minimum. *)
Theorem getResourceHpaValues_narrowing :
  Go.Atoi "4294967346" = Some 4294967346
  /\ MemoryUtilization (getResourceHpaValues sampleKeys
       (<["kompose.hpa.memory" := "4294967346"]> ∅)) = 50
  /\ DefaultMemoryUtilization = 70
  /\ MinReplicas (getResourceHpaValues sampleKeys
       (<["kompose.hpa.replicas.min" := "2147483648"]> ∅)) = - 2147483648.
Proof. vm_compute. repeat split; reflexivity. Qed.

(** C9. The autoscaler of every service carries exactly two metrics, CPU
    first and memory second, and both targets lie in [1, 100]; the guard
    of getHpaMetricSpec never drops one. *)
Theorem createHPAResources_two_metrics K name labels :
  let values := getResourceHpaValues K labels in
  Metrics (fst (createHPAResources K name labels))
    = [ {| metricResource := ResourceCPU;
           AverageUtilization := CPUtilization values |};
        {| metricResource := ResourceMemory;
           AverageUtilization := MemoryUtilization values |} ]
  /\ 1 <= CPUtilization values <= 100
  /\ 1 <= MemoryUtilization values <= 100.
Proof.
  intros values.
  assert (Hc : 1 <= CPUtilization values <= 100).
  { apply validatePercentageMetric_range. unfold DefaultCPUUtilization. lia. }
  assert (Hm : 1 <= MemoryUtilization values <= 100).
  { apply validatePercentageMetric_range. unfold DefaultMemoryUtilization. lia. }
  split; [| by split].
  unfold createHPAResources, getHpaMetricSpec. cbn [fst Metrics].
  fold values.
  destruct (Z.gtb_spec (CPUtilization values) 0); [| lia].
  destruct (Z.gtb_spec (MemoryUtilization values) 0); [| lia].
  reflexivity.
Qed.

(** With labels that fit in 32 bits the derived values are the parsed
    ones, each replaced by its default when missing, malformed or
    negative; the maximum is raised to the minimum; a percentage outside
    [1, 100] is replaced by its default. *)
Lemma getHpaValue_fits labels label d :
  fitsInt32 labels label -> getHpaValue labels label d = parsedOrDefault labels label d.
Proof.
  intros Hfit. unfold getHpaValue, parsedOrDefault.
  destruct (Go.Atoi (labelOf labels label)) as [v |] eqn:E; [| done].
  destruct (Z.ltb_spec v 0); [done |].
  apply int32_small. specialize (Hfit v E). lia.
Qed.

Lemma getResourceHpaValues_fits K labels :
  fitsInt32 labels (LabelHpaMinReplicas K) ->
  fitsInt32 labels (LabelHpaMaxReplicas K) ->
  fitsInt32 labels (LabelHpaCPU K) ->
  fitsInt32 labels (LabelHpaMemory K) ->
  let pmin := parsedOrDefault labels (LabelHpaMinReplicas K) 1 in
  let pmax := parsedOrDefault labels (LabelHpaMaxReplicas K) 3 in
  let pcpu := parsedOrDefault labels (LabelHpaCPU K) 50 in
  let pmem := parsedOrDefault labels (LabelHpaMemory K) 70 in
  getResourceHpaValues K labels =
    {| MinReplicas := pmin;
       MaxReplicas := Z.max pmin pmax;
       CPUtilization := if (1 <=? pcpu) && (pcpu <=? 100) then pcpu else 50;
       MemoryUtilization := if (1 <=? pmem) && (pmem <=? 100) then pmem else 70 |}.
Proof.
  intros H1 H2 H3 H4 pmin pmax pcpu pmem.
  unfold getResourceHpaValues, validatePercentageMetric.
  rewrite !getHpaValue_fits by assumption.
  unfold DefaultMinReplicas, DefaultMaxReplicas, DefaultCPUUtilization,
    DefaultMemoryUtilization.
  fold pmin pmax pcpu pmem.
  f_equal.
  - destruct (Z.ltb_spec pmax pmin); lia.
  - destruct (Z.gtb_spec pcpu 100), (Z.ltb_spec pcpu 1),
      (Z.leb_spec 1 pcpu), (Z.leb_spec pcpu 100); simpl; lia.
  - destruct (Z.gtb_spec pmem 100), (Z.ltb_spec pmem 1),
      (Z.leb_spec 1 pmem), (Z.leb_spec pmem 100); simpl; lia.
Qed.

(** *** SortServicesFirst *)

Lemma sortLoop_filter objs svc others :
  fold_left (fun '(svc, others) obj =>
               if isServiceKind obj then (svc ++ [obj], others)
               else (svc, others ++ [obj]))
            objs (svc, others)
  = (svc ++ List.filter isServiceKind objs,
     others ++ List.filter notServiceKind objs).
Proof.
  revert svc others.
  induction objs as [| obj objs IH]; intros svc others; simpl.
  - by rewrite !app_nil_r.
  - unfold notServiceKind at 1.
    destruct (isServiceKind obj); simpl; rewrite IH; by rewrite <- app_assoc.
Qed.

Lemma SortServicesFirst_filter objs :
  SortServicesFirst objs
  = List.filter isServiceKind objs ++ List.filter notServiceKind objs.
Proof. unfold SortServicesFirst. by rewrite sortLoop_filter. Qed.




(** *** FormatEnvName *)

Lemma TrimLeft_only_cutset s :
  onlyDotsAndSlashes s = true -> Go.TrimLeft s = EmptyString.
Proof.
  induction s as [| c s IH]; [done |]. simpl.
  intros [Hc Hs]%andb_true_iff. rewrite Hc. by apply IH.
Qed.

Lemma slicePrefix_length n s :
  String.length (Go.slicePrefix n s) = Nat.min n (String.length s).
Proof.
  revert s. induction n as [| n IH]; intros [| c s]; simpl; try done.
  by rewrite IH.
Qed.

Lemma append_nonempty s c rest : s +:+ String c rest <> EmptyString.
Proof. by destruct s. Qed.

(** C10. getUsableNameEnvFile reads [envName[0]] unguarded: on the empty
    name it panics, and FormatEnvName hands it the empty name whenever the
    raw name is made of dots and slashes only. On every non-empty name it
    returns a non-empty name of at most 63 bytes. *)
Theorem getUsableNameEnvFile_empty_panics_else_usable :
  (forall serviceName, getUsableNameEnvFile EmptyString serviceName = None)
  /\ (forall name serviceName,
        onlyDotsAndSlashes name = true -> FormatEnvName name serviceName = None)
  /\ (forall envName serviceName,
        envName <> EmptyString ->
        exists usable,
          getUsableNameEnvFile envName serviceName = Some usable
          /\ usable <> EmptyString
          /\ (String.length usable <= 63)%nat).
Proof.
  split; [done |]. split.
  - intros name serviceName Hname. unfold FormatEnvName, Go.Trim.
    by rewrite (TrimLeft_only_cutset _ Hname).
  - intros [| c0 rest] serviceName Hne; [done |].
    unfold getUsableNameEnvFile.
    set (joined := if bool_decide (c0 = "-"%char)
                   then serviceName +:+ String c0 rest else String c0 rest).
    assert (Hjoined : joined <> EmptyString).
    { unfold joined. case_bool_decide; [apply append_nonempty | done]. }
    eexists. split; [reflexivity |].
    case_bool_decide as Hlen.
    + split.
      * destruct joined; [done | by simpl].
      * rewrite slicePrefix_length. lia.
    + split; [done | lia].
Qed.

Lemma getUsableNameEnvFile_witness :
  FormatEnvName "./" "web" = None
  /\ exists usable,
       getUsableNameEnvFile "-env-local" "web" = Some usable
       /\ usable <> EmptyString /\ (String.length usable <= 63)%nat.
Proof.
  destruct getUsableNameEnvFile_empty_panics_else_usable as (_ & Hfmt & Hok).
  split.
  - apply (Hfmt "./" "web"). reflexivity.
  - apply (Hok "-env-local" "web"). discriminate.
Defined.

(** *** configProbe *)

Lemma configProbe_omitted hc :
  hc = blankHealthCheck \/ Disable hc = true -> configProbe hc = ProbeNil.
Proof.
  intros [-> | Hd]; [done |]. unfold configProbe. rewrite Hd.
  by rewrite orb_true_r.
Qed.

Lemma configProbe_live hc :
  hc <> blankHealthCheck -> Disable hc = false ->
  configProbe hc =
    if bool_decide (0 < length (testCommand hc))%nat
    then ProbeOf (probeWith hc (Some {| Command := testCommand hc |}) None None)
    else if negb (bool_decide (HTTPPath hc = EmptyString))
            && negb (bool_decide (HTTPPort hc = 0))
    then ProbeOf (probeWith hc None
                    (Some {| Path := HTTPPath hc;
                             httpPort := Go.int32 (HTTPPort hc) |}) None)
    else if negb (bool_decide (TCPPort hc = 0))
    then ProbeOf (probeWith hc None None
                    (Some {| tcpPort := Go.int32 (TCPPort hc) |}))
    else ProbePanic "Health check must contain a command".
Proof.
  intros Hb Hd. unfold configProbe. rewrite Hd.
  by rewrite bool_decide_eq_false_2.
Qed.

(** C2. No probe for a blank or disabled check. Otherwise the command
    wins over HTTP and HTTP over TCP, the probe carries that one handler
    and no other, and a check with none of the three panics. *)
Theorem configProbe_precedence (hc : HealthCheck) :
  (hc = blankHealthCheck \/ Disable hc = true -> configProbe hc = ProbeNil)
  /\ (hc <> blankHealthCheck -> Disable hc = false ->
      (testCommand hc <> [] ->
         exists probe, configProbe hc = ProbeOf probe
           /\ Exec probe = Some {| Command := testCommand hc |}
           /\ HTTPGet probe = None /\ TCPSocket probe = None)
      /\ (testCommand hc = [] ->
          HTTPPath hc <> EmptyString /\ HTTPPort hc <> 0 ->
          exists probe, configProbe hc = ProbeOf probe
            /\ Exec probe = None
            /\ HTTPGet probe = Some {| Path := HTTPPath hc;
                                       httpPort := Go.int32 (HTTPPort hc) |}
            /\ TCPSocket probe = None)
      /\ (testCommand hc = [] ->
          ~ (HTTPPath hc <> EmptyString /\ HTTPPort hc <> 0) ->
          TCPPort hc <> 0 ->
          exists probe, configProbe hc = ProbeOf probe
            /\ Exec probe = None /\ HTTPGet probe = None
            /\ TCPSocket probe = Some {| tcpPort := Go.int32 (TCPPort hc) |})
      /\ (testCommand hc = [] ->
          ~ (HTTPPath hc <> EmptyString /\ HTTPPort hc <> 0) ->
          TCPPort hc = 0 ->
          exists msg, configProbe hc = ProbePanic msg))
  /\ (forall probe, configProbe hc = ProbeOf probe ->
        handlerCount probe = 1%nat /\ GRPC probe = None).
Proof.
  split; [apply configProbe_omitted |]. split.
  - intros Hb Hd. rewrite (configProbe_live hc Hb Hd).
    repeat split.
    + intros Hcmd. rewrite bool_decide_eq_true_2; [eauto 6 |].
      destruct (testCommand hc); [done | simpl; lia].
    + intros Hcmd [Hpath Hport]. rewrite Hcmd.
      repeat case_bool_decide; simpl in *; try lia; try done; eauto 6.
    + intros Hcmd Hhttp Htcp. rewrite Hcmd.
      repeat case_bool_decide; simpl in *; try lia; try done;
        try (exfalso; by apply Hhttp); eauto 6.
    + intros Hcmd Hhttp Htcp. rewrite Hcmd.
      repeat case_bool_decide; simpl in *; try lia; try done;
        try (exfalso; by apply Hhttp); eauto.
  - intros probe. unfold configProbe.
    repeat match goal with
           | |- context [if ?b then _ else _] => destruct b
           end; intros [= <-] || intros [=]; done.
Qed.

Lemma configProbe_precedence_witness :
  exists probe,
    configProbe {| Test := Some ["CMD"; "curl"; "-f"; "http://localhost"];
                   Timeout := 3; Interval := 10; Retries := 5;
                   StartPeriod := 0; Disable := false; HTTPPath := "/healthz";
                   TCPPort := 0; HTTPPort := 8080 |} = ProbeOf probe
    /\ Exec probe = Some {| Command := ["CMD"; "curl"; "-f"; "http://localhost"] |}
    /\ HTTPGet probe = None /\ TCPSocket probe = None.
Proof.
  refine (proj1 (proj1 (proj2 (configProbe_precedence _)) _ _) _);
    [discriminate | reflexivity | discriminate].
Defined.

(** *** The user directive *)

Lemma userDirective_keeps_rest user sc :
  Privileged (userDirective user sc) = Privileged sc
  /\ scCapabilities (userDirective user sc) = scCapabilities sc
  /\ ReadOnlyRootFilesystem (userDirective user sc) = ReadOnlyRootFilesystem sc.
Proof.
  unfold userDirective. case_bool_decide; [done |].
  destruct (Go.SplitColon user) as [| u [| g [| x rest]]]; try done.
  - by destruct (Go.ParseInt64 u).
  - by destruct (Go.ParseInt64 u), (Go.ParseInt64 g).
Qed.

(** The option never panics on a pod that has a container. *)
Lemma SecurityContext_total service capabilities podSpec :
  Containers podSpec <> [] ->
  is_Some (SecurityContext service capabilities podSpec).
Proof.
  intros Hc. unfold SecurityContext, attachSecurityContexts.
  case_bool_decide; [by eexists |].
  destruct (Containers podSpec); [done | by eexists].
Qed.

(** Both sites build the run-as fields with the same directive. *)
Lemma securityContext_sites service capabilities :
  RunAsUser (securityContextOf service capabilities)
    = RunAsUser (userDirective (User service) emptySecurityContext)
  /\ RunAsGroup (securityContextOf service capabilities)
    = RunAsGroup (userDirective (User service) emptySecurityContext)
  /\ RunAsUser (securityContextOfTemplate service capabilities)
    = RunAsUser (securityContextOf service capabilities)
  /\ RunAsGroup (securityContextOfTemplate service capabilities)
    = RunAsGroup (securityContextOf service capabilities).
Proof.
  assert (Hbase : forall sc1 sc2 : SecurityContextT,
            RunAsUser sc1 = RunAsUser sc2 -> RunAsGroup sc1 = RunAsGroup sc2 ->
            RunAsUser (userDirective (User service) sc1)
              = RunAsUser (userDirective (User service) sc2)
            /\ RunAsGroup (userDirective (User service) sc1)
              = RunAsGroup (userDirective (User service) sc2)).
  { intros sc1 sc2 Hu Hg. unfold userDirective. case_bool_decide; [done |].
    destruct (Go.SplitColon (User service)) as [| u [| g [| x rest]]]; try done.
    - by destruct (Go.ParseInt64 u).
    - by destruct (Go.ParseInt64 u), (Go.ParseInt64 g). }
  assert (Hcap : forall sc, RunAsUser (withCapabilities capabilities sc) = RunAsUser sc
                            /\ RunAsGroup (withCapabilities capabilities sc) = RunAsGroup sc).
  { intros sc. unfold withCapabilities. by destruct (_ || _). }
  unfold securityContextOfTemplate, securityContextOf.
  repeat split.
  - rewrite (proj1 (Hcap _)). by destruct (svcPrivileged service); apply Hbase.
  - rewrite (proj2 (Hcap _)). by destruct (svcPrivileged service); apply Hbase.
  - by destruct (ReadOnly service).
  - by destruct (ReadOnly service).
Qed.

(** C7, as the code has it. A non-empty user directive is split at its
    colons. With one part, the part sets run-as-user if it parses as a
    signed 64-bit decimal integer (negative numbers included) and is
    dropped otherwise. With two parts, the first sets run-as-user and the
    second run-as-group, each on its own. With three or more parts
    nothing is set. No other field is touched, and the option does not
    panic on a pod that has a container. *)
Theorem userDirective_segments (user : string) (sc : SecurityContextT) :
  user <> EmptyString ->
  (forall uidPart, Go.SplitColon user = [uidPart] ->
     RunAsUser (userDirective user sc) = segmentOr uidPart (RunAsUser sc)
     /\ RunAsGroup (userDirective user sc) = RunAsGroup sc)
  /\ (forall uidPart gidPart, Go.SplitColon user = [uidPart; gidPart] ->
     RunAsUser (userDirective user sc) = segmentOr uidPart (RunAsUser sc)
     /\ RunAsGroup (userDirective user sc) = segmentOr gidPart (RunAsGroup sc))
  /\ ((3 <= length (Go.SplitColon user))%nat -> userDirective user sc = sc)
  /\ Privileged (userDirective user sc) = Privileged sc
  /\ scCapabilities (userDirective user sc) = scCapabilities sc
  /\ ReadOnlyRootFilesystem (userDirective user sc) = ReadOnlyRootFilesystem sc
  /\ (forall service capabilities podSpec,
        User service = user -> Containers podSpec <> [] ->
        is_Some (SecurityContext service capabilities podSpec)).
Proof.
  intros Hne.
  assert (Hu : userDirective user sc =
               match Go.SplitColon user with
               | [uidPart] =>
                   match Go.ParseInt64 uidPart with
                   | None => sc | Some uid => setRunAsUser uid sc end
               | [uidPart; gidPart] =>
                   let sc1 := match Go.ParseInt64 uidPart with
                              | None => sc | Some uid => setRunAsUser uid sc end in
                   match Go.ParseInt64 gidPart with
                   | None => sc1 | Some gid => setRunAsGroup gid sc1 end
               | _ => sc
               end).
  { unfold userDirective. by rewrite bool_decide_eq_false_2. }
  repeat split; try apply userDirective_keeps_rest.
  - rewrite Hu, H. unfold segmentOr. by destruct (Go.ParseInt64 uidPart).
  - rewrite Hu, H. unfold segmentOr. by destruct (Go.ParseInt64 uidPart).
  - rewrite Hu, H. unfold segmentOr.
    by destruct (Go.ParseInt64 uidPart), (Go.ParseInt64 gidPart).
  - rewrite Hu, H. unfold segmentOr.
    by destruct (Go.ParseInt64 uidPart), (Go.ParseInt64 gidPart).
  - intros Hlen. rewrite Hu.
    destruct (Go.SplitColon user) as [| u [| g [| x rest]]]; simpl in Hlen;
      try done; lia.
  - intros service capabilities podSpec _ Hc. by apply SecurityContext_total.
Qed.

Lemma userDirective_segments_witness :
  RunAsUser (userDirective "1000:staff" emptySecurityContext) = Some 1000
  /\ RunAsGroup (userDirective "1000:staff" emptySecurityContext) = None.
Proof.
  assert (Hne : "1000:staff" <> EmptyString) by discriminate.
  exact (proj1 (proj2 (userDirective_segments "1000:staff" emptySecurityContext Hne))
           "1000" "staff" eq_refl).
Defined.

(** C7, counterexample to the wording "non-negative": the directive -5
    parses and sets run-as-user to -5. *)
Lemma userDirective_accepts_negative :
  Go.ParseInt64 "-5" = Some (-5)
  /\ RunAsUser (userDirective "-5" emptySecurityContext) = Some (-5)
  /\ RunAsUser (securityContextOf
       {| svcName := "web"; NetworkMode := EmptyString; Labels := ∅;
          svcVolumes := []; User := "-5"; svcPrivileged := false;
          ReadOnly := false; GroupAdd := None; FsGroup := 0;
          Pid := EmptyString |} noCapabilities) = Some (-5).
Proof. vm_compute. repeat split; reflexivity. Qed.

(** *** RemoveDupObjects *)

Lemma removeDupLoop_dedupFrom objs result existK :
  fst (fold_left removeDupStep objs (result, existK))
  = result ++ dedupFrom existK objs.
Proof.
  revert result existK.
  induction objs as [| obj objs IH]; intros result existK; simpl.
  - by rewrite app_nil_r.
  - unfold objKey.
    destruct (objMeta obj) as [us |]; simpl.
    + fold (seenKey existK (dupKey obj us)).
      destruct (seenKey existK (dupKey obj us)); rewrite IH; [done |].
      by rewrite <- app_assoc.
    + rewrite IH. by rewrite <- app_assoc.
Qed.

Lemma RemoveDupObjects_dedupFrom objs :
  RemoveDupObjects objs = dedupFrom ∅ objs.
Proof. unfold RemoveDupObjects. by rewrite removeDupLoop_dedupFrom. Qed.

Lemma seenKey_insert existK k k' :
  seenKey (<[k := true]> existK) k' = bool_decide (k = k') || seenKey existK k'.
Proof.
  unfold seenKey. case_bool_decide as E.
  - subst. by rewrite lookup_insert_eq.
  - by rewrite lookup_insert_ne.
Qed.

Lemma objKey_of_identity obj :
  objKey obj = keyOfIdentity <$> objIdentity obj.
Proof. unfold objKey, objIdentity. by destruct (objMeta obj). Qed.

Lemma omap_objKey (l : list Object) :
  omap objKey l = keyOfIdentity <$> omap objIdentity l.
Proof.
  induction l as [| x l IH]; [done |].
  cbn [omap list_omap fmap list_fmap]. rewrite objKey_of_identity.
  destruct (objIdentity x); cbn; by rewrite IH.
Qed.

(** The kept objects have pairwise distinct keys, none of them seen
    before. *)
Lemma dedupFrom_fresh existK objs :
  (forall k, k ∈ omap objKey (dedupFrom existK objs) -> seenKey existK k = false)
  /\ NoDup (omap objKey (dedupFrom existK objs)).
Proof.
  revert existK. induction objs as [| obj objs IH]; intros existK; simpl.
  - split; [by intros k Hk%elem_of_nil | constructor].
  - destruct (objKey obj) as [k |] eqn:Ek.
    + destruct (seenKey existK k) eqn:Es; [apply IH |].
      destruct (IH (<[k := true]> existK)) as [Hfresh Hnd].
      simpl. rewrite Ek. split.
      * intros k' [-> | Hk']%elem_of_cons; [done |].
        specialize (Hfresh k' Hk'). rewrite seenKey_insert in Hfresh.
        by apply orb_false_iff in Hfresh as [_ ?].
      * constructor; [| done]. intros Hin.
        specialize (Hfresh k Hin). rewrite seenKey_insert in Hfresh.
        by rewrite bool_decide_eq_true_2 in Hfresh.
    + simpl. rewrite Ek. apply IH.
Qed.

(** A list of fresh, pairwise distinct keys passes unchanged. *)
Lemma dedupFrom_fixed existK objs :
  (forall k, k ∈ omap objKey objs -> seenKey existK k = false) ->
  NoDup (omap objKey objs) ->
  dedupFrom existK objs = objs.
Proof.
  revert existK. induction objs as [| obj objs IH]; intros existK Hfresh Hnd;
    [done |].
  simpl in *. destruct (objKey obj) as [k |] eqn:Ek.
  - rewrite (Hfresh k) by (by left). f_equal.
    apply NoDup_cons in Hnd as [Hk Hnd].
    apply IH; [| done]. intros k' Hk'. rewrite seenKey_insert.
    rewrite (Hfresh k') by (by right).
    rewrite bool_decide_eq_false_2; [done |]. by intros ->.
  - f_equal. by apply IH.
Qed.

Lemma dedupFrom_sublist existK objs : dedupFrom existK objs `sublist_of` objs.
Proof.
  revert existK. induction objs as [| obj objs IH]; intros existK; simpl;
    [constructor |].
  destruct (objKey obj) as [k |]; [destruct (seenKey existK k) |];
    (by apply sublist_cons) || by apply sublist_skip.
Qed.

Lemma dedupFrom_drop_seen existK l2 o2 l3 k :
  objKey o2 = Some k -> seenKey existK k = true ->
  dedupFrom existK (l2 ++ o2 :: l3) = dedupFrom existK (l2 ++ l3).
Proof.
  intros Ek. revert existK.
  induction l2 as [| x l2 IH]; intros existK Hseen; simpl.
  - by rewrite Ek, Hseen.
  - destruct (objKey x) as [kx |]; [destruct (seenKey existK kx) |].
    + by apply IH.
    + f_equal. apply IH. rewrite seenKey_insert, Hseen. apply orb_true_r.
    + f_equal. by apply IH.
Qed.

Lemma dedupFrom_drop_later existK l1 o1 l2 o2 l3 k :
  objKey o1 = Some k -> objKey o2 = Some k ->
  dedupFrom existK (l1 ++ o1 :: l2 ++ o2 :: l3)
  = dedupFrom existK (l1 ++ o1 :: l2 ++ l3).
Proof.
  intros E1 E2. revert existK.
  induction l1 as [| x l1 IH]; intros existK; simpl.
  - rewrite E1. destruct (seenKey existK k) eqn:Es.
    + by apply dedupFrom_drop_seen with k.
    + f_equal. apply dedupFrom_drop_seen with k; [done |].
      rewrite seenKey_insert. by rewrite bool_decide_eq_true_2.
  - destruct (objKey x) as [kx |]; [destruct (seenKey existK kx) |];
      by rewrite IH.
Qed.

Lemma dedupFrom_keeps_unkeyed existK objs obj :
  obj ∈ objs -> objMeta obj = None -> obj ∈ dedupFrom existK objs.
Proof.
  intros Hin Hmeta. revert existK.
  induction objs as [| x objs IH]; intros existK; [by apply elem_of_nil in Hin |].
  apply elem_of_cons in Hin as [<- | Hin]; simpl.
  - unfold objKey. rewrite Hmeta. simpl. by left.
  - destruct (objKey x) as [kx |]; [destruct (seenKey existK kx) |];
      try right; by apply IH.
Qed.

Lemma keepFirstOfEachIdentity_app before l1 l2 :
  keepFirstOfEachIdentity before (l1 ++ l2)
  = keepFirstOfEachIdentity before l1
    ++ keepFirstOfEachIdentity (before ++ l1) l2.
Proof.
  revert before. induction l1 as [| x l1 IH]; intros before; simpl.
  - by rewrite app_nil_r.
  - rewrite IH, <- !app_assoc. done.
Qed.

Lemma keysUnambiguousb_spec L :
  keysUnambiguousb L = true ->
  forall o1 o2, o1 ∈ L -> o2 ∈ L ->
                objKey o1 = objKey o2 -> objIdentity o1 = objIdentity o2.
Proof.
  unfold keysUnambiguousb. rewrite forallb_forall.
  intros Hall o1 o2 H1%list_elem_of_In H2%list_elem_of_In Hk.
  specialize (Hall o1 H1). rewrite forallb_forall in Hall.
  specialize (Hall o2 H2).
  rewrite (bool_decide_eq_true_2 _ Hk) in Hall. simpl in Hall.
  by apply bool_decide_eq_true_1 in Hall.
Qed.

(** The loop against the claim's reading. The map [existK] holds the
    keys of the objects in front; as long as a key stands for one
    identity only, a key seen is an identity seen. *)
Lemma dedupFrom_keepFirstOfEachIdentity existK before objs :
  (forall k, seenKey existK k = true <-> k ∈ omap objKey before) ->
  (forall o1 o2, o1 ∈ before ++ objs -> o2 ∈ before ++ objs ->
                 objKey o1 = objKey o2 -> objIdentity o1 = objIdentity o2) ->
  dedupFrom existK objs = keepFirstOfEachIdentity before objs.
Proof.
  revert existK before.
  induction objs as [| obj objs IH]; intros existK before Hseen Hinj; [done |].
  assert (Hinj' : forall o1 o2, o1 ∈ (before ++ [obj]) ++ objs ->
                    o2 ∈ (before ++ [obj]) ++ objs ->
                    objKey o1 = objKey o2 -> objIdentity o1 = objIdentity o2).
  { intros o1 o2. rewrite <- app_assoc. apply Hinj. }
  assert (Hobj : obj ∈ before ++ obj :: objs) by set_solver.
  cbn [dedupFrom keepFirstOfEachIdentity]. unfold firstOfItsIdentity.
  pose proof (objKey_of_identity obj) as Ek.
  destruct (objIdentity obj) as [id |] eqn:Ei; simpl in Ek; rewrite Ek.
  - destruct (seenKey existK (keyOfIdentity id)) eqn:Es.
    + assert (Hin : Some id ∈ objIdentity <$> before).
      { apply Hseen, list_elem_of_omap in Es as (o & Ho & Eo).
        apply list_elem_of_fmap. exists o. split; [| done].
        rewrite <- Ei. symmetry. apply Hinj; [set_solver | done |].
        by rewrite Eo, Ek. }
      rewrite bool_decide_eq_false_2 by (by intros Hn). simpl.
      apply IH; [| done]. intros k. rewrite omap_app, elem_of_app, Hseen.
      cbn [omap list_omap]. rewrite Ek. split; [by left |].
      intros [Hk | Hk%list_elem_of_singleton]; [done |]. subst k.
      by apply Hseen.
    + assert (Hout : Some id ∉ objIdentity <$> before).
      { intros (o & Eo & Ho)%list_elem_of_fmap.
        assert (Hk : keyOfIdentity id ∈ omap objKey before).
        { apply list_elem_of_omap. exists o. split; [done |].
          by rewrite objKey_of_identity, <- Eo. }
        apply Hseen in Hk. by rewrite Hk in Es. }
      rewrite bool_decide_eq_true_2 by done. simpl. f_equal.
      apply IH; [| done]. intros k. rewrite seenKey_insert, omap_app, elem_of_app.
      cbn [omap list_omap]. rewrite Ek, list_elem_of_singleton.
      rewrite orb_true_iff, bool_decide_eq_true, Hseen. naive_solver.
  - simpl. f_equal. apply IH; [| done]. intros k.
    rewrite omap_app, elem_of_app, Hseen. cbn [omap list_omap]. rewrite Ek.
    set_solver.
Qed.

Lemma RemoveDupObjects_keepFirstOfEachIdentity L :
  (forall o1 o2, o1 ∈ L -> o2 ∈ L ->
                 objKey o1 = objKey o2 -> objIdentity o1 = objIdentity o2) ->
  RemoveDupObjects L = keepFirstOfEachIdentity [] L.
Proof.
  intros Hinj. rewrite RemoveDupObjects_dedupFrom.
  apply dedupFrom_keepFirstOfEachIdentity; [| done].
  intros k. unfold seenKey. rewrite lookup_empty. simpl. set_solver.
Qed.

(** C5, as the code has it. The identity of an object is its group,
    version, kind, namespace and name; an object without metadata has
    none. As long as no two objects of the list with different
    identities are filed under one key, the filter keeps exactly the
    first object in list order of each identity: its result is that of
    the claim's reading of it, and an object that is the first of its
    identity comes right behind what the filter keeps of the objects in
    front of it. For every list: an object that is not the first of its
    identity is dropped; the result is a sub-list in the original order
    with the head of the list and every object without metadata in it;
    no two kept objects share an identity; filtering twice is filtering
    once. *)
Theorem RemoveDupObjects_first_wins (L : list Object) :
  ((forall o1 o2, o1 ∈ L -> o2 ∈ L ->
                  objKey o1 = objKey o2 -> objIdentity o1 = objIdentity o2) ->
   RemoveDupObjects L = keepFirstOfEachIdentity [] L
   /\ (forall l1 obj l2,
         L = l1 ++ obj :: l2 -> firstOfItsIdentity l1 obj = true ->
         exists kept, RemoveDupObjects L = RemoveDupObjects l1 ++ obj :: kept))
  /\ (forall l1 obj l2,
        L = l1 ++ obj :: l2 -> firstOfItsIdentity l1 obj = false ->
        RemoveDupObjects L = RemoveDupObjects (l1 ++ l2))
  /\ RemoveDupObjects L `sublist_of` L
  /\ (forall obj rest, L = obj :: rest ->
        exists kept, RemoveDupObjects L = obj :: kept)
  /\ (forall obj, obj ∈ L -> objMeta obj = None -> obj ∈ RemoveDupObjects L)
  /\ (forall l1 o1 l2 o2 l3 id,
        L = l1 ++ o1 :: l2 ++ o2 :: l3 ->
        objIdentity o1 = Some id -> objIdentity o2 = Some id ->
        RemoveDupObjects L = RemoveDupObjects (l1 ++ o1 :: l2 ++ l3))
  /\ NoDup (omap objIdentity (RemoveDupObjects L))
  /\ RemoveDupObjects (RemoveDupObjects L) = RemoveDupObjects L.
Proof.
  split.
  { intros Hinj. split; [by apply RemoveDupObjects_keepFirstOfEachIdentity |].
    intros l1 obj l2 -> Hfirst.
    rewrite (RemoveDupObjects_keepFirstOfEachIdentity _ Hinj).
    rewrite (RemoveDupObjects_keepFirstOfEachIdentity l1)
      by (intros o1 o2 H1 H2; apply Hinj; set_solver).
    rewrite keepFirstOfEachIdentity_app. cbn [keepFirstOfEachIdentity].
    rewrite app_nil_l, Hfirst. simpl. by eexists. }
  split.
  { intros l1 obj l2 -> Hfirst. unfold firstOfItsIdentity in Hfirst.
    destruct (objIdentity obj) as [id |] eqn:Ei; [| done].
    apply bool_decide_eq_false_1 in Hfirst.
    apply dec_stable in Hfirst.
    apply list_elem_of_fmap in Hfirst as (o1 & E1 & [la [lb ->]]%list_elem_of_split).
    rewrite <- !app_assoc. simpl. rewrite !RemoveDupObjects_dedupFrom.
    apply dedupFrom_drop_later with (keyOfIdentity id);
      rewrite objKey_of_identity; by rewrite <- ?E1, ?Ei. }
  rewrite !RemoveDupObjects_dedupFrom.
  destruct (dedupFrom_fresh ∅ L) as [Hfresh Hnd].
  split; [apply dedupFrom_sublist |]. split.
  { intros obj rest ->. simpl.
    destruct (objKey obj) as [k |]; [| by eexists].
    unfold seenKey. rewrite lookup_empty. simpl. by eexists. }
  split; [intros obj; apply dedupFrom_keeps_unkeyed |]. split.
  { intros l1 o1 l2 o2 l3 id -> E1 E2.
    rewrite !RemoveDupObjects_dedupFrom.
    apply dedupFrom_drop_later with (keyOfIdentity id);
      rewrite objKey_of_identity; by rewrite ?E1, ?E2. }
  split.
  { rewrite omap_objKey in Hnd. by apply NoDup_fmap_1 in Hnd. }
  by apply dedupFrom_fixed.
Qed.

(** A config map, a service, a second config map and a copy of the first
    one: no key stands for two identities, and the filter is the claim's
    reading of it, which keeps the first three objects. *)
Lemma RemoveDupObjects_first_wins_witness :
  RemoveDupObjects
    [ Resource gvkConfigMap (metaOf "web-env" "default");
      Resource gvkService (metaOf "web" "default");
      Resource gvkConfigMap (metaOf "db-env" "default");
      Resource gvkConfigMap (metaOf "web-env" "default") ]
  = keepFirstOfEachIdentity []
      [ Resource gvkConfigMap (metaOf "web-env" "default");
        Resource gvkService (metaOf "web" "default");
        Resource gvkConfigMap (metaOf "db-env" "default");
        Resource gvkConfigMap (metaOf "web-env" "default") ].
Proof.
  apply (proj1 (RemoveDupObjects_first_wins _)).
  apply keysUnambiguousb_spec. vm_compute. reflexivity.
Defined.

Example keepFirstOfEachIdentity_sample :
  keepFirstOfEachIdentity []
    [ Resource gvkConfigMap (metaOf "web-env" "default");
      Resource gvkService (metaOf "web" "default");
      Resource gvkConfigMap (metaOf "db-env" "default");
      Resource gvkConfigMap (metaOf "web-env" "default") ]
  = [ Resource gvkConfigMap (metaOf "web-env" "default");
      Resource gvkService (metaOf "web" "default");
      Resource gvkConfigMap (metaOf "db-env" "default") ]
  /\ RemoveDupObjects
       [ Resource gvkConfigMap (metaOf "web-env" "default");
         Resource gvkService (metaOf "web" "default");
         Resource gvkConfigMap (metaOf "db-env" "default");
         Resource gvkConfigMap (metaOf "web-env" "default") ]
     = [ Resource gvkConfigMap (metaOf "web-env" "default");
         Resource gvkService (metaOf "web" "default");
         Resource gvkConfigMap (metaOf "db-env" "default") ].
Proof. split; vm_compute; reflexivity. Qed.

(** C5, counterexample. Two Ingress objects called [web], one of
    networking.k8s.io/v1 and one of extensions/v1beta1, have the same
    kind, namespace and name, and both are kept: the key holds the group
    and version too. And two config maps, [bc] in namespace [a] and [c]
    in namespace [ab], differ in namespace and in name, yet the key, the
    plain concatenation of the three parts, is the same for both: the
    second is dropped although nothing before it has its identity. *)
Lemma RemoveDupObjects_not_keyed_by_kind_namespace_name :
  RemoveDupObjects
    [ Resource {| Group := "networking.k8s.io"; Version := "v1";
                  Kind := "Ingress" |} (metaOf "web" "default");
      Resource {| Group := "extensions"; Version := "v1beta1";
                  Kind := "Ingress" |} (metaOf "web" "default") ]
  = [ Resource {| Group := "networking.k8s.io"; Version := "v1";
                  Kind := "Ingress" |} (metaOf "web" "default");
      Resource {| Group := "extensions"; Version := "v1beta1";
                  Kind := "Ingress" |} (metaOf "web" "default") ]
  /\ (Namespace (metaOf "bc" "a"), Name (metaOf "bc" "a"))
     <> (Namespace (metaOf "c" "ab"), Name (metaOf "c" "ab"))
  /\ RemoveDupObjects [ Resource gvkConfigMap (metaOf "bc" "a");
                        Resource gvkConfigMap (metaOf "c" "ab") ]
     = [ Resource gvkConfigMap (metaOf "bc" "a") ].
Proof.
  split; [vm_compute; reflexivity |].
  split; [discriminate | vm_compute; reflexivity].
Qed.

(** *** SetVolumes and SetVolumeMounts *)

Section first_by_key.
Context {A : Type} (key : A -> string).

Lemma find_key_some (l : list A) (k : string) :
  k ∈ map key l ->
  exists a, find (fun a => bool_decide (key a = k)) l = Some a
            /\ key a = k /\ a ∈ l.
Proof.
  induction l as [| x l IH]; simpl; [by intros ?%elem_of_nil |].
  intros Hin. case_bool_decide as E.
  - exists x. repeat split; [done | by left].
  - apply elem_of_cons in Hin as [-> | Hin]; [done |].
    destruct (IH Hin) as (a & ? & ? & ?). exists a. repeat split; [done.. |].
    by right.
Qed.

(** Picking the first element of each key of [iter] gives back the
    keys [iter], and only elements of the list. *)
Lemma omap_find_keys (l : list A) (iter : list string) :
  (forall k, k ∈ iter -> k ∈ map key l) ->
  map key (omap (fun k => find (fun a => bool_decide (key a = k)) l) iter) = iter
  /\ (forall a, a ∈ omap (fun k => find (fun a => bool_decide (key a = k)) l) iter ->
        a ∈ l).
Proof.
  induction iter as [| k iter IH]; intros Hsub.
  - split; [done | by intros a ?%elem_of_nil].
  - destruct (find_key_some l k) as (a & Hfind & Hkey & Hin).
    { apply Hsub. by left. }
    destruct IH as [IHk IHin]. { intros k' ?. apply Hsub. by right. }
    cbn [omap list_omap]. rewrite Hfind. split.
    + simpl. by rewrite Hkey, IHk.
    + intros a' [-> | ?]%elem_of_cons; [done | by apply IHin].
Qed.
End first_by_key.

Lemma SetVolumesIter_volumes iter volumes podSpec :
  SetVolumesIter iter volumes podSpec =
    {| Volumes := Volumes podSpec ++ omap (firstVolumeNamed volumes) iter;
       Containers := Containers podSpec;
       SecurityContext_ := SecurityContext_ podSpec |}.
Proof.
  unfold SetVolumesIter. revert podSpec.
  induction iter as [| k iter IH]; intros podSpec.
  - simpl. rewrite app_nil_r. by destruct podSpec.
  - cbn [fold_left omap list_omap].
    destruct (firstVolumeNamed volumes k) as [v |]; rewrite IH; [| done].
    simpl. by rewrite <- app_assoc.
Qed.

Lemma SetVolumeMountsIter_mounts iter volumesMount c :
  SetVolumeMountsIter iter volumesMount c =
    {| cName := cName c; Image := Image c;
       VolumeMounts := VolumeMounts c ++ omap (firstMountAt volumesMount) iter;
       cSecurityContext := cSecurityContext c;
       LivenessProbe := LivenessProbe c; ReadinessProbe := ReadinessProbe c |}.
Proof.
  unfold SetVolumeMountsIter. revert c.
  induction iter as [| k iter IH]; intros c.
  - simpl. rewrite app_nil_r. by destruct c.
  - cbn [fold_left omap list_omap].
    destruct (firstMountAt volumesMount k) as [v |]; rewrite IH; [| done].
    simpl. by rewrite <- app_assoc.
Qed.

Lemma Permutation_empty_elements (iter : list string) (X Y : gset string) :
  X ⊆ Y -> iter ≡ₚ elements (X ∖ Y) -> iter = [].
Proof.
  intros Hsub Hperm.
  assert (HE : X ∖ Y = ∅) by set_solver.
  rewrite HE, elements_empty in Hperm. by apply Permutation_nil_r.
Qed.

(** The names after the step are the union of the names before and the
    names offered; what is added comes from the offered volumes. *)
Lemma SetVolumes_union volumes podSpec podSpec' :
  SetVolumes volumes podSpec podSpec' ->
  exists added,
    Volumes podSpec' = Volumes podSpec ++ added
    /\ Containers podSpec' = Containers podSpec
    /\ SecurityContext_ podSpec' = SecurityContext_ podSpec
    /\ (forall v, v ∈ added -> v ∈ volumes)
    /\ map vName added
       ≡ₚ elements (SetVolumeNames volumes ∖ SetVolumeNames (Volumes podSpec))
    /\ SetVolumeNames (Volumes podSpec')
       = SetVolumeNames (Volumes podSpec) ∪ SetVolumeNames volumes.
Proof.
  intros (iter & Hperm & ->). rewrite SetVolumesIter_volumes. simpl.
  assert (Hsub : forall k, k ∈ iter -> k ∈ map vName volumes).
  { intros k Hk. rewrite Hperm in Hk. apply elem_of_elements in Hk.
    unfold SetVolumeNames in Hk. set_solver. }
  destruct (omap_find_keys vName volumes iter Hsub) as [Hkeys Hin].
  exists (omap (firstVolumeNamed volumes) iter).
  repeat split; try done.
  - unfold firstVolumeNamed. by rewrite Hkeys.
  - unfold SetVolumeNames at 1. rewrite map_app, list_to_set_app_L.
    unfold firstVolumeNamed. rewrite Hkeys.
    fold (SetVolumeNames (Volumes podSpec)).
    apply set_eq. intros k. rewrite !elem_of_union, elem_of_list_to_set, Hperm,
      elem_of_elements, elem_of_difference.
    destruct (decide (k ∈ SetVolumeNames (Volumes podSpec))); naive_solver.
Qed.

Lemma SetVolumeMountsContainer_union volumesMount c c' :
  SetVolumeMountsContainer volumesMount c c' ->
  exists added,
    VolumeMounts c' = VolumeMounts c ++ added
    /\ (forall m, m ∈ added -> m ∈ volumesMount)
    /\ map MountPath added
       ≡ₚ elements (SetVolumeMountPaths volumesMount
                     ∖ SetVolumeMountPaths (VolumeMounts c))
    /\ SetVolumeMountPaths (VolumeMounts c')
       = SetVolumeMountPaths (VolumeMounts c) ∪ SetVolumeMountPaths volumesMount.
Proof.
  intros (iter & Hperm & ->). rewrite SetVolumeMountsIter_mounts. simpl.
  assert (Hsub : forall k, k ∈ iter -> k ∈ map MountPath volumesMount).
  { intros k Hk. rewrite Hperm in Hk. apply elem_of_elements in Hk.
    unfold SetVolumeMountPaths in Hk. set_solver. }
  destruct (omap_find_keys MountPath volumesMount iter Hsub) as [Hkeys Hin].
  exists (omap (firstMountAt volumesMount) iter).
  repeat split; try done.
  - unfold firstMountAt. by rewrite Hkeys.
  - unfold SetVolumeMountPaths at 1. rewrite map_app, list_to_set_app_L.
    unfold firstMountAt. rewrite Hkeys.
    fold (SetVolumeMountPaths (VolumeMounts c)).
    apply set_eq. intros k. rewrite !elem_of_union, elem_of_list_to_set, Hperm,
      elem_of_elements, elem_of_difference.
    destruct (decide (k ∈ SetVolumeMountPaths (VolumeMounts c))); naive_solver.
Qed.

(** When every offered name is present already, the step changes nothing. *)
Lemma SetVolumes_noop volumes podSpec podSpec' :
  SetVolumeNames volumes ⊆ SetVolumeNames (Volumes podSpec) ->
  SetVolumes volumes podSpec podSpec' -> podSpec' = podSpec.
Proof.
  intros Hsub (iter & Hperm & ->).
  by rewrite (Permutation_empty_elements iter _ _ Hsub Hperm).
Qed.

Lemma SetVolumeMountsContainer_noop volumesMount c c' :
  SetVolumeMountPaths volumesMount ⊆ SetVolumeMountPaths (VolumeMounts c) ->
  SetVolumeMountsContainer volumesMount c c' -> c' = c.
Proof.
  intros Hsub (iter & Hperm & ->).
  by rewrite (Permutation_empty_elements iter _ _ Hsub Hperm).
Qed.

Lemma SetVolumeMounts_noop volumesMount podSpec podSpec' :
  Forall (fun c => SetVolumeMountPaths volumesMount
                   ⊆ SetVolumeMountPaths (VolumeMounts c)) (Containers podSpec) ->
  SetVolumeMounts volumesMount podSpec podSpec' -> podSpec' = podSpec.
Proof.
  intros Hall (cs' & HF & ->).
  assert (cs' = Containers podSpec) as ->.
  { induction HF as [| c c' cs cs' Hc HF IH]; [done |].
    apply Forall_cons in Hall as [Hc0 Hall].
    rewrite (SetVolumeMountsContainer_noop _ _ _ Hc0 Hc). f_equal. by apply IH. }
  by destruct podSpec.
Qed.

(** Both steps always have an outcome. *)
Lemma SetVolumes_total volumes podSpec :
  exists podSpec', SetVolumes volumes podSpec podSpec'.
Proof. eexists. by exists (elements (SetVolumeNames volumes ∖ SetVolumeNames (Volumes podSpec))). Qed.

Lemma SetVolumeMounts_total volumesMount podSpec :
  exists podSpec', SetVolumeMounts volumesMount podSpec podSpec'.
Proof.
  assert (H : exists cs', Forall2 (SetVolumeMountsContainer volumesMount)
                            (Containers podSpec) cs').
  { induction (Containers podSpec) as [| c cs [cs' IH]]; [by exists [] |].
    eexists (_ :: cs'). constructor; [| done].
    by exists (elements (SetVolumeMountPaths volumesMount
                         ∖ SetVolumeMountPaths (VolumeMounts c))). }
  destruct H as [cs' H]. eexists. by exists cs'.
Qed.

(** C4. SetVolumes and SetVolumeMounts are idempotent unions keyed by
    volume name and by mount path. Each step has an outcome. It keeps the
    old entries in front and appends, for every offered name (path) that
    is not present yet and for no other, one entry taken from the
    offered list; the names (paths) afterwards are the union of those
    present and those offered. When all offered names (paths) are present
    the step is a no-op, and a second run of the same step leaves the
    outcome of the first unchanged, whatever order the set iterator picks
    in either run. *)
Theorem SetVolumes_SetVolumeMounts_idempotent
    (volumes : list Volume) (volumesMount : list VolumeMount) (podSpec : PodSpec) :
  (exists once, SetVolumes volumes podSpec once)
  /\ (forall once, SetVolumes volumes podSpec once ->
        (exists added,
           Volumes once = Volumes podSpec ++ added
           /\ (forall v, v ∈ added -> v ∈ volumes)
           /\ map vName added
              ≡ₚ elements (SetVolumeNames volumes
                            ∖ SetVolumeNames (Volumes podSpec)))
        /\ SetVolumeNames (Volumes once)
           = SetVolumeNames (Volumes podSpec) ∪ SetVolumeNames volumes
        /\ (SetVolumeNames volumes ⊆ SetVolumeNames (Volumes podSpec) ->
            once = podSpec)
        /\ forall twice, SetVolumes volumes once twice -> twice = once)
  /\ (exists once, SetVolumeMounts volumesMount podSpec once)
  /\ (forall once, SetVolumeMounts volumesMount podSpec once ->
        Forall2 (fun c c' =>
                   (exists added,
                      VolumeMounts c' = VolumeMounts c ++ added
                      /\ (forall m, m ∈ added -> m ∈ volumesMount)
                      /\ map MountPath added
                         ≡ₚ elements (SetVolumeMountPaths volumesMount
                                       ∖ SetVolumeMountPaths (VolumeMounts c)))
                   /\ SetVolumeMountPaths (VolumeMounts c')
                      = SetVolumeMountPaths (VolumeMounts c)
                        ∪ SetVolumeMountPaths volumesMount)
                (Containers podSpec) (Containers once)
        /\ (Forall (fun c => SetVolumeMountPaths volumesMount
                             ⊆ SetVolumeMountPaths (VolumeMounts c))
                   (Containers podSpec) -> once = podSpec)
        /\ forall twice, SetVolumeMounts volumesMount once twice -> twice = once).
Proof.
  split; [apply SetVolumes_total |]. split.
  { intros once Honce.
    destruct (SetVolumes_union _ _ _ Honce)
      as (added & Hvols & _ & _ & Hfrom & Hperm & Hnames).
    split; [by exists added |]. split; [done |]. split.
    - intros Hsub. by apply SetVolumes_noop with volumes.
    - intros twice. apply SetVolumes_noop. rewrite Hnames. set_solver. }
  split; [apply SetVolumeMounts_total |].
  intros once (cs' & HF & ->). cbn [Containers].
  assert (Hunion : Forall2 (fun c c' =>
                     (exists added,
                        VolumeMounts c' = VolumeMounts c ++ added
                        /\ (forall m, m ∈ added -> m ∈ volumesMount)
                        /\ map MountPath added
                           ≡ₚ elements (SetVolumeMountPaths volumesMount
                                         ∖ SetVolumeMountPaths (VolumeMounts c)))
                     /\ SetVolumeMountPaths (VolumeMounts c')
                        = SetVolumeMountPaths (VolumeMounts c)
                          ∪ SetVolumeMountPaths volumesMount)
                   (Containers podSpec) cs').
  { eapply Forall2_impl; [exact HF |]. intros c c' Hc.
    destruct (SetVolumeMountsContainer_union _ _ _ Hc)
      as (added & ? & ? & ? & ?).
    split; [by exists added | done]. }
  split; [done |]. split.
  - intros Hall. apply SetVolumeMounts_noop with volumesMount; [done |].
    by exists cs'.
  - intros twice. apply SetVolumeMounts_noop. cbn [Containers].
    clear HF. induction Hunion as [| c c' cs cs'' [_ Hc] _ IH]; constructor;
      [| done].
    rewrite Hc. set_solver.
Qed.

Lemma SetVolumes_SetVolumeMounts_idempotent_witness :
  SetVolumes [sampleVolume "data"; sampleVolume "cache"]
    {| Volumes := [sampleVolume "cache"]; Containers := [];
       SecurityContext_ := None |}
    {| Volumes := [sampleVolume "cache"; sampleVolume "data"]; Containers := [];
       SecurityContext_ := None |}
  /\ SetVolumeNames [sampleVolume "cache"; sampleVolume "data"]
     = SetVolumeNames [sampleVolume "cache"]
       ∪ SetVolumeNames [sampleVolume "data"; sampleVolume "cache"].
Proof.
  assert (Hstep : SetVolumes [sampleVolume "data"; sampleVolume "cache"]
            {| Volumes := [sampleVolume "cache"]; Containers := [];
               SecurityContext_ := None |}
            {| Volumes := [sampleVolume "cache"; sampleVolume "data"];
               Containers := []; SecurityContext_ := None |}).
  { exists ["data"]. split; [vm_compute; reflexivity | reflexivity]. }
  split; [exact Hstep |].
  exact (proj1 (proj2 (proj1 (proj2 (SetVolumes_SetVolumeMounts_idempotent
                                [sampleVolume "data"; sampleVolume "cache"] []
                                {| Volumes := [sampleVolume "cache"];
                                   Containers := [];
                                   SecurityContext_ := None |})) _ Hstep))).
Defined.

(** *** The update strategy *)







Section controller_update.

(** The controller adapter: what it makes of an object, and its error. *)
Variable UpdateController : Object -> Object * option string.
Variable hasVolumes : bool.
Variable adjust : Object -> Object.



End controller_update.




(** *** fixNetworkModeToService *)

Lemma map_fmap {A B} (f : A -> B) (l : list A) : map f l = f <$> l.
Proof. induction l as [| x l IH]; [done |]. simpl. by rewrite IH. Qed.

Lemma searchLoop_omap services acc :
  fold_left
    (fun deploymentMappings service =>
       if negb (Go.Contains (NetworkMode service) NetworkModeService)
       then deploymentMappings
       else match Go.SplitColon (NetworkMode service) with
            | _ :: target :: _ =>
                deploymentMappings ++
                  [ {| SourceDeploymentName := svcName service;
                       TargetDeploymentName := target |} ]
            | _ => deploymentMappings
            end)
    services acc
  = acc ++ omap mappingOf services.
Proof.
  revert acc. induction services as [| service services IH]; intros acc.
  - simpl. by rewrite app_nil_r.
  - cbn [fold_left omap list_omap]. rewrite IH.
    unfold mappingOf at 2, joinTarget.
    destruct (negb (Go.Contains (NetworkMode service) NetworkModeService));
      [done |].
    destruct (Go.SplitColon (NetworkMode service)) as [| h [| target t]];
      simpl; try done.
    by rewrite <- app_assoc.
Qed.

(** The mappings: one per service that declares a target. *)
Lemma searchNetworkModeToService_omap services :
  searchNetworkModeToService services = omap mappingOf services.
Proof. unfold searchNetworkModeToService. by rewrite searchLoop_omap. Qed.

Lemma searchNetworkModeToService_elem services m :
  m ∈ searchNetworkModeToService services <->
  exists service, service ∈ services
    /\ joinTarget service = Some (TargetDeploymentName m)
    /\ svcName service = SourceDeploymentName m.
Proof.
  rewrite searchNetworkModeToService_omap, list_elem_of_omap.
  unfold mappingOf. split.
  - intros (service & Hin & Hm). exists service.
    destruct (joinTarget service) as [target |]; simplify_eq/=. done.
  - intros (service & Hin & Ht & Hn). exists service. split; [done |].
    rewrite Ht. simpl. destruct m; simpl in *. by subst.
Qed.

(** Appending containers. *)
Lemma appendContainers_nil obj : appendContainers [] obj = obj.
Proof.
  destruct obj as [gvk meta strategy [labels [vs cs sc]] | | | | | |]; try done.
  simpl. by rewrite app_nil_r.
Qed.

Lemma appendContainers_app c1 c2 obj :
  appendContainers c2 (appendContainers c1 obj) = appendContainers (c1 ++ c2) obj.
Proof. destruct obj; try done. simpl. by rewrite app_assoc. Qed.

Lemma isDeploymentNamed_append name cs obj :
  isDeploymentNamed name (appendContainers cs obj) = isDeploymentNamed name obj.
Proof. by destruct obj. Qed.

Lemma deploymentContainers_append name cs obj :
  isDeploymentNamed name obj = true ->
  deploymentContainers (appendContainers cs obj) = deploymentContainers obj ++ cs.
Proof. by destruct obj. Qed.

Lemma isDeploymentNamed_unique s t obj :
  s <> t -> isDeploymentNamed s obj = true -> isDeploymentNamed t obj = false.
Proof.
  destruct obj; try done. simpl.
  intros Hne Hs%bool_decide_eq_true. apply bool_decide_eq_false. congruence.
Qed.

Lemma addContainers_fmap objects cs t :
  addContainersToTargetDeployment objects cs t
  = (fun obj => if isDeploymentNamed t obj then appendContainers cs obj else obj)
      <$> objects.
Proof. unfold addContainersToTargetDeployment. apply map_fmap. Qed.

Lemma addContainers_nil objects t :
  addContainersToTargetDeployment objects [] t = objects.
Proof.
  rewrite addContainers_fmap. rewrite <- (list_fmap_id objects) at 2.
  apply list_fmap_ext. intros _ obj _.
  rewrite appendContainers_nil. by destruct (isDeploymentNamed t obj).
Qed.

Lemma addContainers_twice objects c1 c2 t :
  addContainersToTargetDeployment (addContainersToTargetDeployment objects c1 t) c2 t
  = addContainersToTargetDeployment objects (c1 ++ c2) t.
Proof.
  rewrite !addContainers_fmap, <- list_fmap_compose.
  apply list_fmap_ext. intros _ obj _. simpl.
  destruct (isDeploymentNamed t obj) eqn:E.
  - by rewrite isDeploymentNamed_append, E, appendContainers_app.
  - by rewrite E.
Qed.

Lemma addContainers_length objects cs t :
  length (addContainersToTargetDeployment objects cs t) = length objects.
Proof. rewrite addContainers_fmap. apply length_fmap. Qed.

Lemma addContainers_elem objects cs t obj :
  obj ∈ objects -> isDeploymentNamed t obj = true ->
  appendContainers cs obj ∈ addContainersToTargetDeployment objects cs t.
Proof.
  intros Hin Ht. rewrite addContainers_fmap. apply list_elem_of_fmap.
  exists obj. by rewrite Ht.
Qed.

(** The containers of the source deployments are not touched by an
    append to another target. *)
Lemma sourceContainers_add s t cs objects :
  s <> t ->
  sourceContainers s (addContainersToTargetDeployment objects cs t)
  = sourceContainers s objects.
Proof.
  intros Hne. unfold addContainersToTargetDeployment.
  induction objects as [| obj objects IH]; [done |]. simpl. rewrite IH. f_equal.
  destruct (isDeploymentNamed t obj) eqn:Et; [| done].
  rewrite isDeploymentNamed_append.
  destruct (isDeploymentNamed s obj) eqn:Es; [| done].
  by rewrite (isDeploymentNamed_unique s t obj Hne Es) in Et.
Qed.

Lemma sourceContainers_app s l1 l2 :
  sourceContainers s (l1 ++ l2) = sourceContainers s l1 ++ sourceContainers s l2.
Proof.
  induction l1 as [| obj l1 IH]; [done |]. simpl. by rewrite IH, app_assoc.
Qed.

Lemma sourceContainers_elem s obj objects :
  obj ∈ objects -> isDeploymentNamed s obj = true ->
  exists before after,
    sourceContainers s objects = before ++ deploymentContainers obj ++ after.
Proof.
  intros (l1 & l2 & ->)%list_elem_of_split Hs.
  rewrite sourceContainers_app. simpl. rewrite Hs.
  by exists (sourceContainers s l1), (sourceContainers s l2).
Qed.

(** With a target other than the source, the loop over the sources
    amounts to one append of all the source containers. *)
Lemma addContainersFromSourceLoop_distinct s t n :
  s <> t ->
  forall k objects,
    (k + n = length objects)%nat ->
    addContainersFromSourceLoop (seq k n) objects
      {| SourceDeploymentName := s; TargetDeploymentName := t |}
    = addContainersToTargetDeployment objects
        (sourceContainers s (drop k objects)) t.
Proof.
  intros Hne. induction n as [| n IH]; intros k objects Hlen.
  - simpl. rewrite drop_ge by lia. simpl. by rewrite addContainers_nil.
  - cbn [seq addContainersFromSourceLoop SourceDeploymentName TargetDeploymentName].
    destruct (lookup_lt_is_Some_2 objects k ltac:(lia)) as [obj Hobj].
    rewrite Hobj, (drop_S _ _ _ Hobj). simpl.
    destruct (isDeploymentNamed s obj) eqn:Es.
    + rewrite IH by (rewrite addContainers_length; lia).
      rewrite addContainers_twice. f_equal. f_equal.
      rewrite addContainers_fmap, <- fmap_drop, <- addContainers_fmap.
      by apply sourceContainers_add.
    + by rewrite IH by lia.
Qed.

Lemma addContainersFromSource_distinct s t objects :
  s <> t ->
  addContainersFromSourceToTargetDeployment objects
    {| SourceDeploymentName := s; TargetDeploymentName := t |}
  = addContainersToTargetDeployment objects (sourceContainers s objects) t.
Proof.
  intros Hne. unfold addContainersFromSourceToTargetDeployment.
  by rewrite (addContainersFromSourceLoop_distinct s t _ Hne 0 objects).
Qed.

(** Every step of the merge only appends containers. *)
Lemma extends_refl objects : extends objects objects.
Proof.
  unfold extends. apply Forall_Forall2_diag. apply Forall_forall.
  intros obj Hobj. exists []. by rewrite appendContainers_nil.
Qed.

Lemma extends_trans l1 l2 l3 : extends l1 l2 -> extends l2 l3 -> extends l1 l3.
Proof.
  unfold extends. intros H12. revert l3.
  induction H12 as [| o1 o2 l1 l2 [c1 ->] _ IH]; intros l3 H23.
  - by apply Forall2_nil_inv_l in H23 as ->.
  - apply Forall2_cons_inv_l in H23 as (o3 & l3' & [c2 ->] & H23 & ->).
    constructor; [| by apply IH].
    exists (c1 ++ c2). by rewrite appendContainers_app.
Qed.

Lemma extends_add objects cs t :
  extends objects (addContainersToTargetDeployment objects cs t).
Proof.
  unfold extends. rewrite addContainers_fmap.
  apply Forall2_fmap_r. apply Forall_Forall2_diag. apply Forall_forall.
  intros obj Hobj. unfold compose. cbv beta.
  destruct (isDeploymentNamed t obj); [by exists cs |].
  exists []. by rewrite appendContainers_nil.
Qed.

Lemma extends_loop idxs objects m :
  extends objects (addContainersFromSourceLoop idxs objects m).
Proof.
  revert objects. induction idxs as [| i idxs IH]; intros objects; simpl;
    [apply extends_refl |].
  eapply extends_trans; [| apply IH].
  destruct (objects !! i) as [obj |]; [| apply extends_refl].
  destruct (isDeploymentNamed _ obj); [apply extends_add | apply extends_refl].
Qed.

Lemma extends_merge ms objects :
  extends objects (mergeContainersIntoDestinationDeployment ms objects).
Proof.
  unfold mergeContainersIntoDestinationDeployment. revert objects.
  induction ms as [| m ms IH]; intros objects; simpl; [apply extends_refl |].
  eapply extends_trans; [apply extends_loop | apply IH].
Qed.

Lemma extends_elem l l' obj :
  extends l l' -> obj ∈ l -> exists cs, appendContainers cs obj ∈ l'.
Proof.
  intros Hext (i & Hi)%list_elem_of_lookup.
  destruct (Forall2_lookup_l _ _ _ _ _ Hext Hi) as (obj' & Hi' & cs & ->).
  exists cs. apply list_elem_of_lookup. by exists i.
Qed.

(** Removing the first object equal to one that sits behind [l1]: the
    part after it is untouched, the part before keeps its length and its
    objects other than those the filter [keep] rejects along with it. *)
Lemma removeFromSlice_middle (keep : Object -> bool) l1 obj l2 :
  keep obj = false ->
  exists l1',
    removeFromSlice (l1 ++ obj :: l2) obj = l1' ++ l2
    /\ length l1' = length l1
    /\ List.filter keep l1' = List.filter keep l1.
Proof.
  intros Hkeep. induction l1 as [| x l1 (l1' & Heq & Hlen & Hfil)]; simpl.
  - exists []. by rewrite decide_True.
  - destruct (decide (x = obj)) as [-> | Hne].
    + exists (l1 ++ [obj]). rewrite <- app_assoc. split; [done |].
      rewrite length_app, List.filter_app. simpl. rewrite Hkeep, app_nil_r.
      split; [lia | done].
    + exists (x :: l1'). simpl. rewrite Heq, Hlen, Hfil. done.
Qed.

(** The countdown never reads out of range, and what it leaves is the
    list without the deployments of that name. *)
Lemma removeTargetDeploymentLoop_filter name n :
  forall pre suf,
    length pre = n ->
    Forall (fun obj => notDeploymentNamed name obj = true) suf ->
    removeTargetDeploymentLoop n (pre ++ suf) name
    = Some (List.filter (notDeploymentNamed name) pre ++ suf).
Proof.
  induction n as [| i IH]; intros pre suf Hlen Hsuf.
  - by destruct pre.
  - destruct pre as [| x pre0 _] using rev_ind; [done |].
    rewrite length_app in Hlen. simpl in Hlen.
    cbn [removeTargetDeploymentLoop].
    rewrite <- app_assoc. simpl.
    rewrite (list_lookup_middle pre0 suf x i) by lia.
    rewrite List.filter_app.
    assert (Hx : List.filter (notDeploymentNamed name) [x]
                 = if isDeploymentNamed name x then [] else [x]).
    { simpl. unfold notDeploymentNamed. by destruct (isDeploymentNamed name x). }
    rewrite Hx. clear Hx.
    destruct (isDeploymentNamed name x) eqn:Ex.
    + destruct (removeFromSlice_middle (notDeploymentNamed name) pre0 x suf)
        as (l1' & -> & Hlen' & <-).
      { unfold notDeploymentNamed. by rewrite Ex. }
      rewrite app_nil_r. apply IH; [lia | done].
    + rewrite <- app_assoc. simpl. apply IH; [lia |].
      constructor; [| done]. unfold notDeploymentNamed. by rewrite Ex.
Qed.

Lemma removeTargetDeployment_filter objects name :
  removeTargetDeployment objects name
  = Some (List.filter (notDeploymentNamed name) objects).
Proof.
  unfold removeTargetDeployment.
  rewrite <- (app_nil_r objects) at 2.
  rewrite (removeTargetDeploymentLoop_filter name _ objects []) by done.
  by rewrite app_nil_r.
Qed.

Lemma removeDeploymentTransfered_elem ms :
  forall objects,
  exists out,
    removeDeploymentTransfered ms objects = Some out
    /\ forall obj, obj ∈ out <->
         obj ∈ objects
         /\ Forall (fun m => isDeploymentNamed (SourceDeploymentName m) obj = false) ms.
Proof.
  induction ms as [| m ms IH]; intros objects; simpl.
  - exists objects. split; [done |]. intros obj. split; [by split | by intros []].
  - rewrite removeTargetDeployment_filter.
    destruct (IH (List.filter (notDeploymentNamed (SourceDeploymentName m)) objects))
      as (out & -> & Hout).
    exists out. split; [done |]. intros obj. rewrite Hout, Forall_cons.
    rewrite list_elem_of_In, List.filter_In, <- list_elem_of_In.
    unfold notDeploymentNamed. rewrite negb_true_iff. tauto.
Qed.

(** With a single mapping from A to another name B the pass is exactly:
    append the containers of the Deployments called A to every
    Deployment called B, then drop the Deployments called A. *)
Lemma fixNetworkModeToService_single objects services A B :
  searchNetworkModeToService services
    = [ {| SourceDeploymentName := A; TargetDeploymentName := B |} ] ->
  A <> B ->
  fixNetworkModeToService objects services
  = Some (List.filter (notDeploymentNamed A)
            (addContainersToTargetDeployment objects
               (sourceContainers A objects) B)).
Proof.
  intros Hms HAB. unfold fixNetworkModeToService. rewrite Hms. simpl.
  rewrite (addContainersFromSource_distinct A B objects HAB).
  by rewrite removeTargetDeployment_filter.
Qed.

(** C1, as the code has it. Let service A declare B as the service whose
    network it joins, and let B itself join no service. Then the pass
    returns a list; for every Deployment called B of the input, the list
    holds that Deployment with containers appended to its own, the
    appended ones including, in one block, the containers of every
    Deployment called A of the input; and no Deployment called A is left. *)
Theorem fixNetworkModeToService_merges_into_target
    (objects : list Object) (services : list ServiceConfig)
    (serviceA : ServiceConfig) (B : string) (deployA deployB : Object) :
  serviceA ∈ services ->
  joinTarget serviceA = Some B ->
  (forall service, service ∈ services -> is_Some (joinTarget service) ->
                   svcName service <> B) ->
  deployA ∈ objects -> isDeploymentNamed (svcName serviceA) deployA = true ->
  deployB ∈ objects -> isDeploymentNamed B deployB = true ->
  exists out,
    fixNetworkModeToService objects services = Some out
    /\ (exists before after,
          appendContainers (before ++ deploymentContainers deployA ++ after) deployB
            ∈ out)
    /\ (forall obj, obj ∈ out -> isDeploymentNamed (svcName serviceA) obj = false).
Proof.
  intros HA HjoinA HB HdA HnA HdB HnB.
  set (A := svcName serviceA) in *.
  set (ms := searchNetworkModeToService services).
  assert (Hm : {| SourceDeploymentName := A; TargetDeploymentName := B |} ∈ ms).
  { apply searchNetworkModeToService_elem. by exists serviceA. }
  assert (Hsrc : forall m, m ∈ ms -> SourceDeploymentName m <> B).
  { intros m (service & Hin & Ht & <-)%searchNetworkModeToService_elem.
    apply HB; [done | by eexists]. }
  assert (HAB : A <> B) by apply (Hsrc _ Hm).
  unfold fixNetworkModeToService. fold ms.
  rewrite bool_decide_eq_false_2.
  2:{ destruct ms; [by apply elem_of_nil in Hm | done]. }
  destruct (removeDeploymentTransfered_elem ms
              (mergeContainersIntoDestinationDeployment ms objects))
    as (out & -> & Hout).
  exists out. split; [done |].
  destruct (list_elem_of_split _ _ Hm) as (ms1 & ms2 & Hms).
  assert (Hmerge : mergeContainersIntoDestinationDeployment ms objects
    = mergeContainersIntoDestinationDeployment ms2
        (addContainersToTargetDeployment
           (mergeContainersIntoDestinationDeployment ms1 objects)
           (sourceContainers A (mergeContainersIntoDestinationDeployment ms1 objects))
           B)).
  { unfold mergeContainersIntoDestinationDeployment at 1. rewrite Hms.
    rewrite fold_left_app. simpl.
    by rewrite (addContainersFromSource_distinct A B _ HAB). }
  split.
  - destruct (extends_elem _ _ deployB (extends_merge ms1 objects) HdB)
      as (c1 & HB1).
    destruct (extends_elem _ _ deployA (extends_merge ms1 objects) HdA)
      as (ca & HA1).
    destruct (sourceContainers_elem A _ _ HA1) as (x & y & Hsrcs).
    { by rewrite isDeploymentNamed_append. }
    rewrite (deploymentContainers_append A) in Hsrcs by done.
    pose proof (addContainers_elem _
      (sourceContainers A (mergeContainersIntoDestinationDeployment ms1 objects))
      B _ HB1) as HB2.
    rewrite isDeploymentNamed_append in HB2. specialize (HB2 HnB).
    destruct (extends_elem _ _ _ (extends_merge ms2 _) HB2) as (c3 & HB3).
    rewrite <- Hmerge, !appendContainers_app, Hsrcs in HB3.
    exists (c1 ++ x), ((ca ++ y) ++ c3).
    apply Hout. split.
    + by rewrite <- !app_assoc in *.
    + apply Forall_forall. intros m Hmin.
      rewrite isDeploymentNamed_append.
      apply (isDeploymentNamed_unique B); [| done].
      intros Heq. by apply (Hsrc m Hmin).
  - intros obj [_ Hall]%Hout.
    rewrite Forall_forall in Hall. apply (Hall _ Hm).
Qed.

(** The scenario of the specification: [cache] joins [web]. *)
Example network_merge_scenario :
  fixNetworkModeToService
    [ sampleDeployment "web" [sampleContainer "web"];
      Resource gvkService (metaOf "web" EmptyString);
      sampleDeployment "cache" [sampleContainer "cache"] ]
    [ sampleService "web" EmptyString; sampleService "cache" "service:web" ]
  = Some [ sampleDeployment "web" [sampleContainer "web"; sampleContainer "cache"];
           Resource gvkService (metaOf "web" EmptyString) ].
Proof. vm_compute. reflexivity. Qed.

Lemma fixNetworkModeToService_merges_witness :
  exists out,
    fixNetworkModeToService
      [ sampleDeployment "web" [sampleContainer "web"];
        sampleDeployment "cache" [sampleContainer "cache"] ]
      [ sampleService "web" EmptyString; sampleService "cache" "service:web" ]
    = Some out
    /\ (exists before after,
          appendContainers
            (before ++ deploymentContainers
                         (sampleDeployment "cache" [sampleContainer "cache"])
                    ++ after)
            (sampleDeployment "web" [sampleContainer "web"]) ∈ out)
    /\ (forall obj, obj ∈ out ->
          isDeploymentNamed (svcName (sampleService "cache" "service:web")) obj
          = false).
Proof.
  apply (fixNetworkModeToService_merges_into_target _ _
           (sampleService "cache" "service:web") "web").
  - right. left.
  - reflexivity.
  - intros service Hin [target Ht].
    apply elem_of_cons in Hin as [-> | Hin]; [discriminate Ht |].
    apply elem_of_cons in Hin as [-> | Hin]; [discriminate |].
    by apply elem_of_nil in Hin.
  - right. left.
  - reflexivity.
  - left.
  - reflexivity.
Defined.

(** C1, counterexample. [a] joins [b] and [b] joins [c], all three being
    Deployments: the Deployment [b] is removed with its containers moved
    on to [c], so that no workload called [b] holds the containers of
    [a] and [b]. *)
Lemma fixNetworkModeToService_chain_loses_target :
  joinTarget (sampleService "a" "service:b") = Some "b"
  /\ fixNetworkModeToService
       [ sampleDeployment "a" [sampleContainer "a"];
         sampleDeployment "b" [sampleContainer "b"];
         sampleDeployment "c" [sampleContainer "c"] ]
       [ sampleService "a" "service:b"; sampleService "b" "service:c";
         sampleService "c" EmptyString ]
     = Some [ sampleDeployment "c"
                [sampleContainer "c"; sampleContainer "b"; sampleContainer "a"] ].
Proof. vm_compute. split; reflexivity. Qed.

(** The same chain when the map iteration meets [b] before [a]: the
    container of [a] reaches no Deployment at all. *)
Example chain_other_order_loses_containers :
  fixNetworkModeToService
    [ sampleDeployment "a" [sampleContainer "a"];
      sampleDeployment "b" [sampleContainer "b"];
      sampleDeployment "c" [sampleContainer "c"] ]
    [ sampleService "b" "service:c"; sampleService "a" "service:b";
      sampleService "c" EmptyString ]
  = Some [ sampleDeployment "c" [sampleContainer "c"; sampleContainer "b"] ].
Proof. vm_compute. reflexivity. Qed.

(** ** Part III: further properties of the passes *)

(** *** The network-mode pass *)

(** X1. removeTargetDeployment never reads out of range, whatever
    duplicates the list holds, and returns the list without the
    Deployments of that name, the other objects in their order. *)
Theorem removeTargetDeployment_total (objects : list Object) (name : string) :
  exists out,
    removeTargetDeployment objects name = Some out
    /\ out = List.filter (notDeploymentNamed name) objects
    /\ out `sublist_of` objects
    /\ (forall obj, obj ∈ out -> isDeploymentNamed name obj = false).
Proof.
  exists (List.filter (notDeploymentNamed name) objects).
  split; [apply removeTargetDeployment_filter |]. split; [done |]. split.
  - induction objects as [| x l IH]; simpl; [constructor |].
    destruct (notDeploymentNamed name x);
      [by apply sublist_skip | by apply sublist_cons].
  - intros obj Hin. apply list_elem_of_In, List.filter_In in Hin as [_ Hn].
    unfold notDeploymentNamed in Hn. by apply negb_true_iff in Hn.
Qed.

Lemma filter_filter_andb {A} (p q : A -> bool) (l : list A) :
  List.filter q (List.filter p l) = List.filter (fun x => p x && q x) l.
Proof.
  induction l as [| x l IH]; [done |]. simpl.
  destruct (p x); simpl; [destruct (q x) |]; by rewrite IH.
Qed.

Lemma removeDeploymentTransfered_filter ms objects :
  removeDeploymentTransfered ms objects
  = Some (List.filter (notSource ms) objects).
Proof.
  revert objects. induction ms as [| m ms IH]; intros objects; simpl.
  - f_equal. induction objects as [| x l IHl]; [done |]. simpl. by rewrite <- IHl.
  - rewrite removeTargetDeployment_filter, IH, filter_filter_andb. done.
Qed.

Lemma extends_length l l' : extends l l' -> length l = length l'.
Proof. apply Forall2_length. Qed.

(** X2. The network-mode pass never panics. Its result is the input
    list, in order, without the Deployments named after a service that
    joins another; every object it keeps is the input object, a
    Deployment possibly with containers appended after its own. *)
Theorem fixNetworkModeToService_frame
    (objects : list Object) (services : list ServiceConfig) :
  exists merged,
    extends objects merged
    /\ fixNetworkModeToService objects services
       = Some (List.filter (notSource (searchNetworkModeToService services))
                 merged).
Proof.
  unfold fixNetworkModeToService.
  destruct (searchNetworkModeToService services) as [| m ms] eqn:E.
  - exists objects. split; [apply extends_refl |]. simpl. f_equal.
    induction objects as [| x l IH]; [done |]. simpl. by rewrite <- IH.
  - exists (mergeContainersIntoDestinationDeployment (m :: ms) objects).
    split; [apply extends_merge |].
    rewrite bool_decide_eq_false_2 by done.
    apply removeDeploymentTransfered_filter.
Qed.

Lemma SplitColon_noColon s : noColon s = true -> Go.SplitColon s = [s].
Proof.
  induction s as [| c s IH]; [done |]. simpl.
  intros [Hc Hs]%andb_true_iff. apply negb_true_iff in Hc.
  rewrite Hc, (IH Hs). done.
Qed.

Lemma prefix_noColon p s :
  String.prefix p s = true -> noColon s = true -> noColon p = true.
Proof.
  revert s. induction p as [| a p IH]; intros [| b s]; simpl; try done.
  destruct (Ascii.ascii_dec a b) as [-> |]; [| done].
  intros Hp [Hb Hs]%andb_true_iff. rewrite Hb. simpl. by apply (IH s).
Qed.

Lemma Contains_noColon s : noColon s = true -> Go.Contains s "service:" = false.
Proof.
  induction s as [| c s IH]; [done |]. intros Hs.
  assert (Hp : String.prefix "service:" (String c s) = false).
  { destruct (String.prefix "service:" (String c s)) eqn:E; [| done].
    by pose proof (prefix_noColon _ _ E Hs). }
  cbn [Go.Contains]. rewrite Hp. apply IH.
  cbn [noColon] in Hs. by apply andb_true_iff in Hs as [_ ?].
Qed.

Lemma prefix_app p s : String.prefix p (p +:+ s) = true.
Proof.
  induction p as [| a p IH]; simpl; [by destruct s |].
  by destruct (Ascii.ascii_dec a a).
Qed.

Lemma Contains_prefix s p : String.prefix p s = true -> Go.Contains s p = true.
Proof. intros H. destruct s; cbn [Go.Contains]; by rewrite H. Qed.

(** X3. A service called A whose network mode is the text service:
    followed by a name B free of colons yields exactly the mapping from A
    to B; a network mode without any colon (host, bridge, none, ...)
    yields no mapping. *)
Theorem searchNetworkModeToService_round_trip (service : ServiceConfig) :
  (forall B, noColon B = true -> NetworkMode service = "service:" +:+ B ->
     searchNetworkModeToService [service]
     = [ {| SourceDeploymentName := svcName service;
            TargetDeploymentName := B |} ])
  /\ (noColon (NetworkMode service) = true ->
      searchNetworkModeToService [service] = []).
Proof.
  split.
  - intros B HB Hmode.
    rewrite searchNetworkModeToService_omap. cbn [omap list_omap].
    unfold mappingOf, joinTarget. rewrite Hmode.
    unfold NetworkModeService.
    rewrite (Contains_prefix _ _ (prefix_app "service:" B)).
    cbn [negb]. cbn -[Go.SplitColon].
    assert (Hsplit : Go.SplitColon ("service:" +:+ B) = ["service"; B]).
    { change ("service:" +:+ B)
        with (String "s" (String "e" (String "r" (String "v" (String "i"
               (String "c" (String "e" (String ":" B)))))))).
      cbn [Go.SplitColon].
      rewrite !bool_decide_eq_false_2 by discriminate.
      rewrite bool_decide_eq_true_2 by done.
      by rewrite (SplitColon_noColon B HB). }
    by rewrite Hsplit.
  - intros Hmode.
    rewrite searchNetworkModeToService_omap. cbn [omap list_omap].
    unfold mappingOf, joinTarget, NetworkModeService.
    by rewrite (Contains_noColon _ Hmode).
Qed.

Lemma searchNetworkModeToService_round_trip_witness :
  searchNetworkModeToService [sampleService "cache" "service:web"]
  = [ {| SourceDeploymentName := "cache"; TargetDeploymentName := "web" |} ].
Proof.
  apply (proj1 (searchNetworkModeToService_round_trip
                  (sampleService "cache" "service:web")) "web");
    reflexivity.
Defined.

(** X4. When exactly one service joins another one, the pass appends the
    containers of the Deployments named after the joining service to
    every Deployment named after the target, and drops the former;
    nothing else changes. *)
Theorem fixNetworkModeToService_one_mapping
    (objects : list Object) (services : list ServiceConfig) (A B : string) :
  searchNetworkModeToService services
    = [ {| SourceDeploymentName := A; TargetDeploymentName := B |} ] ->
  A <> B ->
  fixNetworkModeToService objects services
  = Some (List.filter (notDeploymentNamed A)
            (addContainersToTargetDeployment objects
               (sourceContainers A objects) B)).
Proof. apply fixNetworkModeToService_single. Qed.

Lemma fixNetworkModeToService_one_mapping_witness :
  fixNetworkModeToService
    [ sampleDeployment "web" [sampleContainer "web"];
      sampleDeployment "cache" [sampleContainer "cache"] ]
    [ sampleService "web" EmptyString; sampleService "cache" "service:web" ]
  = Some (List.filter (notDeploymentNamed "cache")
            (addContainersToTargetDeployment
               [ sampleDeployment "web" [sampleContainer "web"];
                 sampleDeployment "cache" [sampleContainer "cache"] ]
               (sourceContainers "cache"
                  [ sampleDeployment "web" [sampleContainer "web"];
                    sampleDeployment "cache" [sampleContainer "cache"] ])
               "web")).
Proof.
  apply (fixNetworkModeToService_one_mapping _ _ "cache" "web");
    [reflexivity | discriminate].
Defined.

(** *** Sorting and removing duplicates together *)

Lemma filter_partition_Permutation {A} (p : A -> bool) (l : list A) :
  List.filter p l ++ List.filter (fun x => negb (p x)) l ≡ₚ l.
Proof.
  induction l as [| x l IH]; [done |]. simpl.
  destruct (p x); simpl.
  - by rewrite IH.
  - by rewrite <- Permutation_middle, IH.
Qed.

Lemma SortServicesFirst_perm (L : list Object) : SortServicesFirst L ≡ₚ L.
Proof.
  rewrite SortServicesFirst_filter. apply filter_partition_Permutation.
Qed.

(** X5. Sorting loses and invents nothing: the sorted list is a
    permutation of the input, of the same length. *)
Theorem SortServicesFirst_Permutation (L : list Object) :
  SortServicesFirst L ≡ₚ L /\ length (SortServicesFirst L) = length L.
Proof.
  split; [apply SortServicesFirst_perm |].
  apply Permutation_length, SortServicesFirst_perm.
Qed.

Lemma filter_all {A} (p : A -> bool) (l : list A) :
  Forall (fun x => p x = true) l -> List.filter p l = l.
Proof.
  induction 1 as [| x l Hx _ IH]; [done |]. simpl. by rewrite Hx, IH.
Qed.

Lemma filter_none {A} (p : A -> bool) (l : list A) :
  Forall (fun x => p x = false) l -> List.filter p l = [].
Proof. induction 1 as [| x l Hx _ IH]; [done |]. simpl. by rewrite Hx. Qed.

Lemma SortServicesFirst_partitioned svc others :
  Forall (fun obj => isServiceKind obj = true) svc ->
  Forall (fun obj => isServiceKind obj = false) others ->
  SortServicesFirst (svc ++ others) = svc ++ others.
Proof.
  intros Hs Ho. rewrite SortServicesFirst_filter, !List.filter_app.
  rewrite (filter_all isServiceKind svc Hs), (filter_none isServiceKind others Ho).
  rewrite (filter_none notServiceKind svc), (filter_all notServiceKind others).
  - by rewrite app_nil_r.
  - eapply Forall_impl; [exact Ho |]. intros x Hx. unfold notServiceKind.
    by rewrite Hx.
  - eapply Forall_impl; [exact Hs |]. intros x Hx. unfold notServiceKind.
    by rewrite Hx.
Qed.

(** X6. Removing duplicates from a sorted list leaves it sorted: in the
    order sort, then remove duplicates, the services still come first. *)
Theorem RemoveDupObjects_keeps_services_first (L : list Object) :
  SortServicesFirst (RemoveDupObjects (SortServicesFirst L))
  = RemoveDupObjects (SortServicesFirst L).
Proof.
  pose proof (dedupFrom_sublist ∅ (SortServicesFirst L)) as Hsub.
  rewrite <- RemoveDupObjects_dedupFrom in Hsub.
  rewrite SortServicesFirst_filter in Hsub at 2.
  apply sublist_app_r in Hsub as (k1 & k2 & -> & Hk1 & Hk2).
  apply SortServicesFirst_partitioned.
  - apply Forall_forall. intros obj Hobj.
    apply (fun H => elem_of_sublist _ _ _ H Hk1) in Hobj.
    by apply list_elem_of_In, List.filter_In in Hobj as [_ ?].
  - apply Forall_forall. intros obj Hobj.
    apply (fun H => elem_of_sublist _ _ _ H Hk2) in Hobj.
    apply list_elem_of_In, List.filter_In in Hobj as [_ Hn].
    unfold notServiceKind in Hn. by apply negb_true_iff in Hn.
Qed.

(** X7. Sorting a list without duplicates introduces none: in the order
    remove duplicates, then sort, a further removal finds nothing. *)
Theorem SortServicesFirst_keeps_duplicate_free (L : list Object) :
  RemoveDupObjects (SortServicesFirst (RemoveDupObjects L))
  = SortServicesFirst (RemoveDupObjects L).
Proof.
  rewrite (RemoveDupObjects_dedupFrom (SortServicesFirst _)).
  apply dedupFrom_fixed.
  - intros k _. unfold seenKey. by rewrite lookup_empty.
  - rewrite (SortServicesFirst_perm (RemoveDupObjects L)).
    rewrite RemoveDupObjects_dedupFrom. apply dedupFrom_fresh.
Qed.

(** *** Autoscaler values *)

(** X8. The autoscaler object never has its maximum below its minimum,
    whatever the labels hold, and hands the replica count 0 back to the
    service. *)
Theorem createHPAResources_max_ge_min K name labels :
  hpaMinReplicas (createHPAResources K name labels).1
  <= hpaMaxReplicas (createHPAResources K name labels).1
  /\ (createHPAResources K name labels).2 = 0.
Proof. split; [apply getResourceHpaValues_max_ge_min | done]. Qed.

(** X9. For labels whose numbers fit in 32 bits, each derived value is
    the parsed label, or the default when the label is missing,
    malformed or negative; the maximum is raised to the minimum; a
    percentage outside [1, 100] is replaced by its default. *)
Theorem getResourceHpaValues_in_range K labels :
  fitsInt32 labels (LabelHpaMinReplicas K) ->
  fitsInt32 labels (LabelHpaMaxReplicas K) ->
  fitsInt32 labels (LabelHpaCPU K) ->
  fitsInt32 labels (LabelHpaMemory K) ->
  getResourceHpaValues K labels =
    {| MinReplicas := parsedOrDefault labels (LabelHpaMinReplicas K) 1;
       MaxReplicas := Z.max (parsedOrDefault labels (LabelHpaMinReplicas K) 1)
                            (parsedOrDefault labels (LabelHpaMaxReplicas K) 3);
       CPUtilization :=
         if (1 <=? parsedOrDefault labels (LabelHpaCPU K) 50)
            && (parsedOrDefault labels (LabelHpaCPU K) 50 <=? 100)
         then parsedOrDefault labels (LabelHpaCPU K) 50 else 50;
       MemoryUtilization :=
         if (1 <=? parsedOrDefault labels (LabelHpaMemory K) 70)
            && (parsedOrDefault labels (LabelHpaMemory K) 70 <=? 100)
         then parsedOrDefault labels (LabelHpaMemory K) 70 else 70 |}.
Proof. intros. by apply getResourceHpaValues_fits. Qed.

Lemma getResourceHpaValues_in_range_witness :
  getResourceHpaValues sampleKeys
    (<["kompose.hpa.replicas.min" := "5"]>
       (<["kompose.hpa.replicas.max" := "2"]>
          (<["kompose.hpa.cpu" := "150"]> ∅)))
  = {| MinReplicas := 5; MaxReplicas := 5; CPUtilization := 50;
       MemoryUtilization := 70 |}.
Proof.
  rewrite (getResourceHpaValues_in_range sampleKeys).
  - vm_compute. reflexivity.
  - intros v Hv. vm_compute in Hv. injection Hv as <-. reflexivity.
  - intros v Hv. vm_compute in Hv. injection Hv as <-. reflexivity.
  - intros v Hv. vm_compute in Hv. injection Hv as <-. reflexivity.
  - intros v Hv. vm_compute in Hv. discriminate Hv.
Defined.

Lemma getHpaValue_absent labels label d :
  labels !! label = None -> getHpaValue labels label d = d.
Proof.
  intros H. apply getHpaValue_parse_failure. unfold labelOf. by rewrite H.
Qed.

(** X10. When searchHPAValues finds none of the four labels, the derived
    values are the defaults 1, 3, 50 and 70. *)
Theorem searchHPAValues_none_gives_defaults K labels :
  searchHPAValues K labels = false ->
  getResourceHpaValues K labels
  = {| MinReplicas := DefaultMinReplicas; MaxReplicas := DefaultMaxReplicas;
       CPUtilization := DefaultCPUUtilization;
       MemoryUtilization := DefaultMemoryUtilization |}.
Proof.
  unfold searchHPAValues, LabelKeys. cbn [existsb].
  rewrite !orb_false_iff. intros (Hc & Hm & Hmin & Hmax & _).
  assert (Habs : forall k, bool_decide (is_Some (labels !! k)) = false ->
                           labels !! k = None).
  { intros k Hk%bool_decide_eq_false. by apply eq_None_not_Some. }
  unfold getResourceHpaValues, validatePercentageMetric.
  rewrite !getHpaValue_absent by by apply Habs.
  reflexivity.
Qed.

Lemma searchHPAValues_none_witness :
  getResourceHpaValues sampleKeys (<["kompose.service.type" := "nodeport"]> ∅)
  = {| MinReplicas := 1; MaxReplicas := 3; CPUtilization := 50;
       MemoryUtilization := 70 |}.
Proof.
  apply (searchHPAValues_none_gives_defaults sampleKeys). reflexivity.
Defined.

(** *** Names *)

Lemma TrimLeft_head s :
  Go.TrimLeft s = EmptyString
  \/ exists c rest, Go.TrimLeft s = String c rest /\ Go.inCutset c = false.
Proof.
  induction s as [| c s IH]; [by left |]. simpl.
  destruct (Go.inCutset c) eqn:E; [done | right; eauto].
Qed.

Lemma TrimLeft_empty_only s :
  Go.TrimLeft s = EmptyString -> onlyDotsAndSlashes s = true.
Proof.
  induction s as [| c s IH]; [done |]. simpl.
  destruct (Go.inCutset c); [by intros ?%IH | done].
Qed.

Lemma TrimRight_empty_only s :
  Go.TrimRight s = EmptyString -> onlyDotsAndSlashes s = true.
Proof.
  induction s as [| c s IH]; [done |]. simpl.
  destruct (Go.TrimRight s); [| done].
  destruct (Go.inCutset c); [intros _; by apply IH | done].
Qed.

Lemma replaceNonAlnum_empty s :
  replaceNonAlnum 0 s = EmptyString -> s = EmptyString.
Proof. destruct s as [| c s]; [done |]. simpl. by destruct (isAlnum c). Qed.

(** X11. FormatEnvName panics exactly on the names made of dots and
    slashes only (the empty name included); on every other name it
    returns a name. *)
Theorem FormatEnvName_panics_iff (name serviceName : string) :
  FormatEnvName name serviceName = None <-> onlyDotsAndSlashes name = true.
Proof.
  split.
  - unfold FormatEnvName, getUsableNameEnvFile.
    destruct (replaceNonAlnum 0 (Go.Trim name)) eqn:E; [| done]. intros _.
    apply replaceNonAlnum_empty in E. unfold Go.Trim in E.
    destruct (TrimLeft_head name) as [H | (c & rest & H & Hc)].
    + by apply TrimLeft_empty_only.
    + rewrite H in E. apply TrimRight_empty_only in E. simpl in E.
      by rewrite Hc in E.
  - intros H. unfold FormatEnvName, Go.Trim.
    by rewrite (TrimLeft_only_cutset _ H).
Qed.

Lemma replaceNonAlnum_charset skip s :
  allBytes isAlnumOrDash (replaceNonAlnum skip s) = true
  /\ (String.length (replaceNonAlnum skip s) <= String.length s)%nat.
Proof.
  revert skip. induction s as [| c s IH]; intros skip; [done |].
  cbn [replaceNonAlnum]. destruct skip as [| skip].
  - destruct (isAlnum c) eqn:E; cbn [allBytes String.length].
    + destruct (IH 0%nat) as [H1 H2]. unfold isAlnumOrDash at 1.
      rewrite E, H1. split; [done | lia].
    + destruct (IH (runeWidth (String c s) - 1)%nat) as [H1 H2].
      rewrite H1. split; [done | lia].
  - destruct (IH skip) as [H1 H2]. cbn [String.length]. split; [done | lia].
Qed.

Lemma allBytes_app p s1 s2 :
  allBytes p (s1 +:+ s2) = allBytes p s1 && allBytes p s2.
Proof.
  induction s1 as [| c s1 IH]; [done |].
  change (String c s1 +:+ s2) with (String c (s1 +:+ s2)). simpl.
  by rewrite IH, andb_assoc.
Qed.

Lemma allBytes_slicePrefix p n s :
  allBytes p s = true -> allBytes p (Go.slicePrefix n s) = true.
Proof.
  revert s. induction n as [| n IH]; intros [| c s]; simpl; try done.
  intros [Hc Hs]%andb_true_iff. by rewrite Hc, IH.
Qed.

(** X12. The replacement leaves only letters, digits and dashes, and
    never makes the name longer; so whenever FormatEnvName returns, the
    name has at most 63 bytes, and consists of letters, digits and dashes
    provided the service name does. *)
Theorem FormatEnvName_charset (name serviceName usable : string) :
  FormatEnvName name serviceName = Some usable ->
  (String.length usable <= 63)%nat
  /\ (allBytes isAlnumOrDash serviceName = true ->
      allBytes isAlnumOrDash usable = true)
  /\ (String.length (replaceNonAlnum 0 (Go.Trim name)) <= String.length (Go.Trim name))%nat.
Proof.
  unfold FormatEnvName, getUsableNameEnvFile.
  destruct (replaceNonAlnum_charset 0 (Go.Trim name)) as [Hcs Hlen].
  destruct (replaceNonAlnum 0 (Go.Trim name)) as [| c0 rest] eqn:E; [done |].
  cbv zeta.
  set (joined := if bool_decide (c0 = "-"%char)
                 then serviceName +:+ String c0 rest else String c0 rest).
  assert (Hj : allBytes isAlnumOrDash serviceName = true ->
               allBytes isAlnumOrDash joined = true).
  { intros Hsvc. unfold joined. case_bool_decide; [| done].
    by rewrite allBytes_app, Hsvc, Hcs. }
  clearbody joined.
  destruct (bool_decide (63 < String.length joined)%nat) eqn:Hl;
    intros Heq; apply (inj Some) in Heq; subst usable.
  - split; [rewrite slicePrefix_length; lia |]. split; [| done].
    intros Hsvc. by apply allBytes_slicePrefix, Hj.
  - apply bool_decide_eq_false in Hl. split; [lia |]. by split.
Qed.

Lemma FormatEnvName_charset_witness :
  (String.length "web-env-local" <= 63)%nat
  /\ (allBytes isAlnumOrDash "web" = true ->
      allBytes isAlnumOrDash "web-env-local" = true)
  /\ (String.length (replaceNonAlnum 0 (Go.Trim "./_env.local"))
      <= String.length (Go.Trim "./_env.local"))%nat.
Proof.
  apply (FormatEnvName_charset "./_env.local" "web"). vm_compute. reflexivity.
Defined.

Lemma replaceUnderscores_length s :
  String.length (replaceUnderscores s) = String.length s.
Proof. induction s as [| c s IH]; [done |]. simpl. by rewrite IH. Qed.

Lemma replaceUnderscores_none s :
  anyByte (isByte "_") (replaceUnderscores s) = false.
Proof.
  induction s as [| c s IH]; [done |].
  cbn [replaceUnderscores anyByte]. rewrite IH, orb_false_r. unfold isByte.
  destruct (decide (c = "_"%char)) as [-> | Hc].
  - rewrite (bool_decide_eq_true_2 ("_"%char = "_"%char)) by done.
    by apply bool_decide_eq_false_2.
  - rewrite (bool_decide_eq_false_2 (c = "_"%char)) by done.
    by apply bool_decide_eq_false_2.
Qed.

Lemma replaceUnderscores_id s :
  anyByte (isByte "_") s = false -> replaceUnderscores s = s.
Proof.
  induction s as [| c s IH]; [done |]. simpl.
  intros [Hc Hs]%orb_false_iff. unfold isByte in Hc. rewrite Hc. by rewrite IH.
Qed.

Lemma replaceUnderscores_keeps b s :
  b <> "_"%char -> b <> "-"%char ->
  anyByte (isByte b) (replaceUnderscores s) = anyByte (isByte b) s.
Proof.
  intros H1 H2. induction s as [| c s IH]; [done |].
  cbn [replaceUnderscores anyByte]. rewrite IH. f_equal. unfold isByte.
  destruct (decide (c = "_"%char)) as [-> | Hc].
  - rewrite (bool_decide_eq_true_2 ("_"%char = "_"%char)) by done.
    by rewrite !bool_decide_eq_false_2 by congruence.
  - by rewrite (bool_decide_eq_false_2 (c = "_"%char)) by done.
Qed.

(** X13. The container name never holds an underscore, has the length of
    the name it was made from (the explicit container name when there is
    one, the service name otherwise), and formatting it again changes
    nothing. *)
Theorem GetContainerName_no_underscore (service : ServiceConfig)
    (containerName : string) :
  let chosen := if bool_decide (containerName = EmptyString)
                then svcName service else containerName in
  GetContainerName service containerName = FormatContainerName chosen
  /\ anyByte (isByte "_") (GetContainerName service containerName) = false
  /\ String.length (GetContainerName service containerName)
     = String.length chosen
  /\ FormatContainerName (GetContainerName service containerName)
     = GetContainerName service containerName.
Proof.
  intros chosen.
  assert (H : GetContainerName service containerName = FormatContainerName chosen).
  { unfold GetContainerName, chosen. destruct containerName; [done |].
    rewrite bool_decide_eq_true_2 by (simpl; lia).
    by rewrite bool_decide_eq_false_2. }
  rewrite H. unfold FormatContainerName. repeat split.
  - apply replaceUnderscores_none.
  - apply replaceUnderscores_length.
  - apply replaceUnderscores_id, replaceUnderscores_none.
Qed.

Lemma pathSplitFile_no_slash path :
  anyByte (isByte "/") (pathSplitFile path) = false.
Proof.
  induction path as [| c rest IH]; [done |]. simpl.
  destruct (anyByte (isByte "/") rest) eqn:E; [done |].
  case_bool_decide as Ec; [done |]. simpl. rewrite E.
  unfold isByte. by rewrite bool_decide_eq_false_2.
Qed.

Lemma pathSplitFile_suffix path :
  exists dir, path = dir +:+ pathSplitFile path
              /\ (dir = EmptyString \/ exists d, dir = d +:+ "/").
Proof.
  induction path as [| c rest (dir & Hd & Hslash)]; [exists EmptyString; eauto |].
  simpl. destruct (anyByte (isByte "/") rest) eqn:E.
  - exists (String c dir). split; [by rewrite Hd at 1 |]. right.
    destruct Hslash as [-> | [d ->]]; [| by exists (String c d)].
    change (EmptyString +:+ pathSplitFile rest) with (pathSplitFile rest) in Hd.
    rewrite Hd, pathSplitFile_no_slash in E. done.
  - case_bool_decide as Ec.
    + subst c. exists "/". split; [done |]. right. by exists EmptyString.
    + exists EmptyString. by split; [| left].
Qed.

Lemma pathSplitFile_id path :
  anyByte (isByte "/") path = false -> pathSplitFile path = path.
Proof.
  destruct path as [| c rest]; [done |]. simpl.
  intros [Hc Hr]%orb_false_iff. rewrite Hr. unfold isByte in Hc. by rewrite Hc.
Qed.

(** X14. FormatFileName keeps what follows the last slash of the name
    and turns its underscores into dashes: the result holds neither a
    slash nor an underscore, the name is a directory part (empty or
    ending in a slash) followed by a file part of which the result is the
    rewriting, and formatting the result again changes nothing. *)
Theorem FormatFileName_base (name : string) :
  anyByte (isByte "/") (FormatFileName name) = false
  /\ anyByte (isByte "_") (FormatFileName name) = false
  /\ (exists dir file,
        name = dir +:+ file
        /\ (dir = EmptyString \/ exists d, dir = d +:+ "/")
        /\ anyByte (isByte "/") file = false
        /\ FormatFileName name = replaceUnderscores file)
  /\ FormatFileName (FormatFileName name) = FormatFileName name.
Proof.
  unfold FormatFileName.
  assert (Hs : anyByte (isByte "/") (replaceUnderscores (pathSplitFile name)) = false).
  { rewrite replaceUnderscores_keeps by done. apply pathSplitFile_no_slash. }
  split; [done |]. split; [apply replaceUnderscores_none |]. split.
  - destruct (pathSplitFile_suffix name) as (dir & Hd & Hslash).
    exists dir, (pathSplitFile name).
    repeat split; try done. apply pathSplitFile_no_slash.
  - rewrite (pathSplitFile_id _ Hs).
    apply replaceUnderscores_id, replaceUnderscores_none.
Qed.













(** *** Grouping services *)

(** X17. SortedKeys returns the keys in ascending order, each as often
    as the loop yielded it, and the result does not depend on the order
    in which the map was iterated. *)
Theorem SortedKeys_deterministic (iter iter' : list string) :
  Sorted String.le (SortedKeys iter)
  /\ SortedKeys iter ≡ₚ iter
  /\ (iter ≡ₚ iter' -> SortedKeys iter = SortedKeys iter').
Proof.
  unfold SortedKeys. split; [apply Sorted_merge_sort; apply _ |].
  split; [apply merge_sort_Permutation |].
  intros Hperm. apply (Sorted_unique String.le).
  - apply Sorted_merge_sort; apply _.
  - apply Sorted_merge_sort; apply _.
  - by rewrite !merge_sort_Permutation.
Qed.

Lemma SortedKeys_deterministic_witness :
  SortedKeys ["web"; "cache"; "db"] = SortedKeys ["db"; "web"; "cache"].
Proof.
  apply (proj2 (proj2 (SortedKeys_deterministic ["web"; "cache"; "db"]
                         ["db"; "web"; "cache"]))).
  apply (@Permutation_cons_app _ ["cache"; "db"] ["db"] ["cache"] "web").
  apply perm_swap.
Defined.

Lemma getServiceGroupID_mark key mode service sc :
  getServiceGroupID key (markGrouped service sc) mode
  = getServiceGroupID key sc mode.
Proof. done. Qed.

Lemma markGrouped_idem service sc :
  markGrouped service (markGrouped service sc) = markGrouped service sc.
Proof. done. Qed.

Lemma getServiceGroupID_zero key mode :
  getServiceGroupID key zeroGroupedService mode = EmptyString.
Proof.
  unfold getServiceGroupID. by repeat case_bool_decide.
Qed.

(** What the loop does from any intermediate state whose service map
    holds, under each key, the original service or its marked copy. *)
Lemma groupLoop_members key mode (m : gmap string GroupedService) keys :
  forall groups m',
    (forall k, m' !! k = m !! k
               \/ exists sc, m !! k = Some sc /\ m' !! k = Some (markGrouped k sc)) ->
    let '(groups', m'') := fold_left (groupStep key mode) keys (groups, m') in
    (forall g, g <> EmptyString ->
       default [] (groups' !! g)
       = default [] (groups !! g) ++ groupMembers key mode m g keys)
    /\ (forall g, groups' !! g = None <->
          groups !! g = None
          /\ (g = EmptyString \/ groupMembers key mode m g keys = []))
    /\ (forall k, m'' !! k
          = if bool_decide (k ∈ keys) && isGrouped key mode m k
            then markGrouped k <$> m !! k else m' !! k).
Proof.
  induction keys as [| service keys IH]; intros groups m' Hinv.
  - cbn [fold_left]. split; [intros g _; by rewrite app_nil_r |]. split.
    + intros g. split; [intros ->; split; [done | by right] | by intros []].
    + intros k. rewrite bool_decide_eq_false_2 by apply not_elem_of_nil. done.
  - cbn [fold_left].
    set (sc' := default zeroGroupedService (m' !! service)).
    assert (Hid : getServiceGroupID key sc' mode
                  = match m !! service with
                    | Some sc => getServiceGroupID key sc mode
                    | None => EmptyString
                    end
                  /\ (forall sc, m !! service = Some sc ->
                        markGrouped service sc' = markGrouped service sc)).
    { unfold sc'. destruct (Hinv service) as [-> | (sc & Hsc & ->)].
      - destruct (m !! service) as [sc |]; simpl.
        + split; [done | by intros ? [= ->]].
        + split; [apply getServiceGroupID_zero | done].
      - rewrite Hsc. simpl. split; [done |]. by intros ? [= <-]. }
    destruct Hid as [Hid Hmark].
    assert (Htail : forall k, k <> service ->
              bool_decide (k ∈ service :: keys) = bool_decide (k ∈ keys)).
    { intros k Hk. apply bool_decide_ext. rewrite elem_of_cons. naive_solver. }
    unfold groupStep at 2. fold sc'.
    destruct (bool_decide (getServiceGroupID key sc' mode = EmptyString)) eqn:Eg.
    + apply bool_decide_eq_true in Eg.
      assert (Hgr : isGrouped key mode m service = false).
      { unfold isGrouped. destruct (m !! service) as [sc |]; [| done].
        rewrite <- Hid, Eg. by rewrite bool_decide_eq_true_2. }
      assert (Hskip : forall g, g <> EmptyString ->
                groupMembers key mode m g (service :: keys)
                = groupMembers key mode m g keys).
      { intros g Hg. unfold groupMembers. cbn [omap list_omap].
        destruct (m !! service) as [sc |]; [| done].
        rewrite bool_decide_eq_false_2; [done | congruence]. }
      specialize (IH groups m' Hinv).
      destruct (fold_left (groupStep key mode) keys (groups, m'))
        as [groups' m''].
      destruct IH as (IH1 & IH2 & IH3).
      split; [intros g Hg; by rewrite Hskip, IH1 |]. split.
      * intros g. rewrite IH2.
        destruct (decide (g = EmptyString)) as [-> | Hg]; [tauto |].
        by rewrite Hskip.
      * intros k. rewrite IH3.
        destruct (decide (k = service)) as [-> | Hk].
        -- by rewrite Hgr, !andb_false_r.
        -- by rewrite Htail.
    + apply bool_decide_eq_false in Eg.
      destruct (m !! service) as [sc |] eqn:Hsc; [| congruence].
      rewrite (Hmark sc eq_refl).
      set (gid := getServiceGroupID key sc' mode) in *.
      assert (Hgr : isGrouped key mode m service = true).
      { unfold isGrouped. rewrite Hsc, <- Hid.
        by rewrite bool_decide_eq_false_2. }
      assert (Hinv' : forall k,
                <[service := markGrouped service sc]> m' !! k = m !! k
                \/ exists sc0, m !! k = Some sc0
                     /\ <[service := markGrouped service sc]> m' !! k
                        = Some (markGrouped k sc0)).
      { intros k. destruct (decide (k = service)) as [-> | Hk].
        - right. exists sc. by rewrite lookup_insert_eq.
        - rewrite lookup_insert_ne by done. apply Hinv. }
      specialize (IH (<[gid := default [] (groups !! gid)
                                ++ [markGrouped service sc]]> groups)
                    (<[service := markGrouped service sc]> m') Hinv').
      destruct (fold_left (groupStep key mode) keys _) as [groups' m''].
      destruct IH as (IH1 & IH2 & IH3).
      assert (Hcons : forall g,
                groupMembers key mode m g (service :: keys)
                = (if bool_decide (gid = g) then [markGrouped service sc] else [])
                  ++ groupMembers key mode m g keys).
      { intros g. unfold groupMembers. cbn [omap list_omap]. rewrite Hsc.
        rewrite <- Hid. fold gid. by case_bool_decide. }
      split; [| split].
      * intros g Hg. rewrite IH1 by done. rewrite Hcons.
        destruct (decide (gid = g)) as [<- | Hne].
        -- rewrite lookup_insert_eq, bool_decide_eq_true_2 by done. simpl.
           by rewrite <- app_assoc.
        -- rewrite lookup_insert_ne, bool_decide_eq_false_2 by done. done.
      * intros g. rewrite IH2, Hcons.
        destruct (decide (gid = g)) as [<- | Hne].
        -- rewrite lookup_insert_eq, bool_decide_eq_true_2 by done. simpl.
           split; [by intros [? _] |]. intros [_ [? | ?]]; done.
        -- rewrite lookup_insert_ne, bool_decide_eq_false_2 by done. done.
      * intros k. rewrite IH3.
        destruct (decide (k = service)) as [-> | Hk].
        -- rewrite lookup_insert_eq, Hsc, Hgr, andb_true_r.
           rewrite (bool_decide_eq_true_2 (service ∈ service :: keys))
             by (by left).
           simpl. by case_bool_decide.
        -- rewrite lookup_insert_ne by done. by rewrite Htail.
Qed.

Lemma SortedKeys_Permutation_eq iter iter' :
  iter ≡ₚ iter' -> SortedKeys iter = SortedKeys iter'.
Proof.
  intros Hperm. unfold SortedKeys. apply (Sorted_unique String.le).
  - apply Sorted_merge_sort; apply _.
  - apply Sorted_merge_sort; apply _.
  - by rewrite !merge_sort_Permutation.
Qed.

(** X18. The groups built by KomposeObjectToServiceConfigGroupMapping:
    the group of a non-empty identifier holds exactly the services with
    that identifier, in ascending order of their names, each with its
    name set to its key and the grouping flag raised; no group exists
    for the empty identifier or without a member. In the service map the
    grouped services are replaced by these marked copies and all others
    are left as they were. *)
Theorem KomposeObjectToServiceConfigGroupMapping_groups
    (labelServiceGroup mode : string) (iter : list string)
    (ServiceConfigs : gmap string GroupedService) :
  let result := KomposeObjectToServiceConfigGroupMapping labelServiceGroup mode
                  iter ServiceConfigs in
  (forall g, g <> EmptyString ->
     default [] (result.1 !! g)
     = groupMembers labelServiceGroup mode ServiceConfigs g (SortedKeys iter))
  /\ (forall g, result.1 !! g = None <->
        g = EmptyString
        \/ groupMembers labelServiceGroup mode ServiceConfigs g (SortedKeys iter)
           = [])
  /\ (forall k, result.2 !! k
        = if bool_decide (k ∈ iter)
             && isGrouped labelServiceGroup mode ServiceConfigs k
          then markGrouped k <$> ServiceConfigs !! k
          else ServiceConfigs !! k).
Proof.
  intros result. subst result.
  unfold KomposeObjectToServiceConfigGroupMapping.
  pose proof (groupLoop_members labelServiceGroup mode ServiceConfigs
                (SortedKeys iter) ∅ ServiceConfigs (fun k => or_introl eq_refl))
    as H.
  destruct (fold_left (groupStep labelServiceGroup mode) (SortedKeys iter)
              (∅, ServiceConfigs)) as [groups m'].
  destruct H as (H1 & H2 & H3). cbn [fst snd]. split; [| split].
  - intros g Hg. rewrite (H1 g Hg), lookup_empty. done.
  - intros g. rewrite (H2 g), lookup_empty. tauto.
  - intros k. rewrite (H3 k).
    assert (Hk : bool_decide (k ∈ SortedKeys iter) = bool_decide (k ∈ iter)).
    { apply bool_decide_ext. unfold SortedKeys.
      by rewrite merge_sort_Permutation. }
    by rewrite Hk.
Qed.

(** X19. Grouping is deterministic: two runs that iterate the service
    map in different orders build the same groups and the same service
    map. *)
Theorem KomposeObjectToServiceConfigGroupMapping_deterministic
    (labelServiceGroup mode : string) (iter iter' : list string)
    (ServiceConfigs : gmap string GroupedService) :
  iter ≡ₚ iter' ->
  KomposeObjectToServiceConfigGroupMapping labelServiceGroup mode iter
    ServiceConfigs
  = KomposeObjectToServiceConfigGroupMapping labelServiceGroup mode iter'
      ServiceConfigs.
Proof.
  intros Hperm. unfold KomposeObjectToServiceConfigGroupMapping.
  by rewrite (SortedKeys_Permutation_eq iter iter' Hperm).
Qed.

(** The services web, db and cache, keyed by their names; web and db
    share the volume data, cache has no volume. Whether the map is
    iterated as web, db, cache or as cache, db, web, the group data is
    [db; web] and cache stays alone. *)
Lemma KomposeObjectToServiceConfigGroupMapping_deterministic_witness :
  KomposeObjectToServiceConfigGroupMapping "kompose.service.group" "volume"
    ["web"; "db"; "cache"]
    (<["web" := {| gsConfig := sampleService "web" EmptyString;
                   VolList := ["data"]; InGroup := false |}]>
       (<["db" := {| gsConfig := sampleService "db" EmptyString;
                     VolList := ["data"]; InGroup := false |}]>
          (<["cache" := {| gsConfig := sampleService "cache" EmptyString;
                           VolList := []; InGroup := false |}]> ∅)))
  = KomposeObjectToServiceConfigGroupMapping "kompose.service.group" "volume"
      ["cache"; "db"; "web"]
      (<["web" := {| gsConfig := sampleService "web" EmptyString;
                     VolList := ["data"]; InGroup := false |}]>
         (<["db" := {| gsConfig := sampleService "db" EmptyString;
                       VolList := ["data"]; InGroup := false |}]>
            (<["cache" := {| gsConfig := sampleService "cache" EmptyString;
                             VolList := []; InGroup := false |}]> ∅))).
Proof.
  apply KomposeObjectToServiceConfigGroupMapping_deterministic.
  exact (Permutation_sym (reverse_Permutation ["web"; "db"; "cache"])).
Defined.

(** On that map the run is not trivial: it builds the group data with
    db in front of web, whichever of the two orders the map yields. *)
Example grouping_deterministic_groups :
  let services :=
    <["web" := {| gsConfig := sampleService "web" EmptyString;
                  VolList := ["data"]; InGroup := false |}]>
      (<["db" := {| gsConfig := sampleService "db" EmptyString;
                    VolList := ["data"]; InGroup := false |}]>
         (<["cache" := {| gsConfig := sampleService "cache" EmptyString;
                          VolList := []; InGroup := false |}]> ∅)) in
  let names iter :=
    (fun r => (map (fun s => svcName (gsConfig s)) <$> r.1 !! "data",
               InGroup <$> r.2 !! "web", InGroup <$> r.2 !! "cache"))
      (KomposeObjectToServiceConfigGroupMapping "kompose.service.group"
         "volume" iter services) in
  names ["web"; "db"; "cache"] = (Some ["db"; "web"], Some true, Some false)
  /\ names ["cache"; "db"; "web"] = (Some ["db"; "web"], Some true, Some false).
Proof. split; vm_compute; reflexivity. Qed.

(** X20. With a grouping mode other than label and volume no service is
    grouped: the group map is empty and the service map untouched. *)
Theorem KomposeObjectToServiceConfigGroupMapping_other_mode
    (labelServiceGroup mode : string) (iter : list string)
    (ServiceConfigs : gmap string GroupedService) :
  mode <> "label" -> mode <> "volume" ->
  KomposeObjectToServiceConfigGroupMapping labelServiceGroup mode iter
    ServiceConfigs
  = (∅, ServiceConfigs).
Proof.
  intros Hl Hv. unfold KomposeObjectToServiceConfigGroupMapping.
  induction (SortedKeys iter) as [| service keys IH]; [done |].
  cbn [fold_left]. unfold groupStep at 2, getServiceGroupID.
  rewrite (bool_decide_eq_false_2 (mode = "label")) by done.
  rewrite (bool_decide_eq_false_2 (mode = "volume")) by done.
  by rewrite bool_decide_eq_true_2.
Qed.

Lemma KomposeObjectToServiceConfigGroupMapping_other_mode_witness :
  KomposeObjectToServiceConfigGroupMapping "kompose.service.group" EmptyString
    ["web"]
    {[ "web" := {| gsConfig := sampleService "web" EmptyString;
                   VolList := ["data"]; InGroup := false |} ]}
  = (∅, {[ "web" := {| gsConfig := sampleService "web" EmptyString;
                       VolList := ["data"]; InGroup := false |} ]}).
Proof.
  apply KomposeObjectToServiceConfigGroupMapping_other_mode; discriminate.
Defined.

(** *** removeEmptyInterfaces *)

Example removeEmptyInterfaces_drops_last :
  removeEmptyInterfaces 3 (VSlice [VScalar "a"; VMap []])
  = Returned (VSlice [VScalar "a"]).
Proof. reflexivity. Qed.

Example removeEmptyInterfaces_panics :
  removeEmptyInterfaces 3 (VSlice [VNil; VScalar "a"]) = Panicked.
Proof. reflexivity. Qed.

Example removeEmptyInterfaces_map :
  removeEmptyInterfaces 4
    (VMap [("a", VNil); ("b", VMap [("c", VSlice [VMap []])]); ("d", VScalar "x")])
  = Returned (VMap [("d", VScalar "x")]).
Proof. reflexivity. Qed.

Lemma shifted_length (arr : list Value) i len :
  (i + 1 <= len)%nat -> (len <= length arr)%nat ->
  length (take i arr ++ drop (S i) (take len arr) ++ drop (len - 1) arr)
  = length arr.
Proof.
  intros Hi Hlen.
  rewrite !length_app, length_take, !length_drop, length_take. lia.
Qed.

(** Once the variable is shorter than the array and an iteration is
    left, the loop cannot return. *)
Lemma sliceLoop_doomed rec remaining :
  forall i arr len,
    (0 < remaining)%nat -> (i + remaining = length arr)%nat ->
    (len < length arr)%nat ->
    isReturned (sliceLoop rec remaining i arr len) = false.
Proof.
  induction remaining as [| r IH]; intros i arr len Hr Hi Hlen; [lia |].
  cbn [sliceLoop].
  destruct (arr !! i) as [val |]; [| done].
  destruct (isEmptyEntry val).
  - case_bool_decide as Hb; [| done].
    destruct r as [| r]; [lia |].
    apply IH; [lia | rewrite shifted_length; lia | rewrite shifted_length; lia].
  - destruct (rec val) as [val' | |]; try done.
    case_bool_decide as Hb; [| done].
    destruct r as [| r]; [lia |].
    apply IH; rewrite ?length_insert; lia.
Qed.

(** An empty entry that is not the last element dooms the loop. *)
Lemma sliceLoop_empty_entry rec remaining :
  forall i arr len j x,
    (i + remaining = length arr)%nat -> (len <= length arr)%nat ->
    (i <= j)%nat -> (j + 1 < length arr)%nat ->
    arr !! j = Some x -> isEmptyEntry x = true ->
    isReturned (sliceLoop rec remaining i arr len) = false.
Proof.
  induction remaining as [| r IH]; intros i arr len j x Hi Hlen Hij Hj Hx He;
    [lia |].
  cbn [sliceLoop].
  destruct (arr !! i) as [val |] eqn:Hval; [| done].
  destruct (isEmptyEntry val) eqn:Hempty.
  - case_bool_decide as Hb; [| done].
    apply sliceLoop_doomed; rewrite ?shifted_length by lia; lia.
  - destruct (rec val) as [val' | |]; try done.
    case_bool_decide as Hb; [| done].
    assert (i <> j) by (intros ->; congruence).
    apply (IH (S i) _ len j x); rewrite ?length_insert; try lia; try done.
    by rewrite list_lookup_insert_ne.
Qed.

Lemma depth_elem (v : list Value) val :
  val ∈ v -> (depth val <= foldr (fun val d => Nat.max (depth val) d) 0 v)%nat.
Proof.
  induction v as [| x v IH]; [by intros ?%elem_of_nil |].
  intros [-> | Hin]%elem_of_cons; simpl; [lia |]. specialize (IH Hin). lia.
Qed.

Lemma depth_bound (v : list Value) D :
  Forall (fun val => depth val <= D)%nat v ->
  (foldr (fun val d => Nat.max (depth val) d) 0 v <= D)%nat.
Proof. induction 1 as [| x v Hx _ IH]; simpl; lia. Qed.

Lemma depth_entry_bound (m : list (string * Value)) D :
  Forall (fun entry => depth entry.2 <= D)%nat m ->
  (foldr (fun entry d => Nat.max (depth entry.2) d) 0 m <= D)%nat.
Proof. induction 1 as [| x v Hx _ IH]; simpl; lia. Qed.

Lemma depth_entry_elem (m : list (string * Value)) entry :
  entry ∈ m ->
  (depth entry.2 <= foldr (fun entry d => Nat.max (depth entry.2) d) 0 m)%nat.
Proof.
  induction m as [| x v IH]; [by intros ?%elem_of_nil |].
  intros [-> | Hin]%elem_of_cons; simpl; [lia |]. specialize (IH Hin). lia.
Qed.

(** A recursion that neither runs out of fuel nor deepens the values up
    to depth [D] keeps the slice loop from running out of fuel, and the
    array within depth [D]. *)
Lemma sliceLoop_fuel rec D remaining :
  (forall val, (depth val <= D)%nat ->
     rec val <> OutOfFuel
     /\ forall r, rec val = Returned r -> (depth r <= depth val)%nat) ->
  forall i arr len,
    Forall (fun val => depth val <= D)%nat arr ->
    sliceLoop rec remaining i arr len <> OutOfFuel
    /\ forall arr' len', sliceLoop rec remaining i arr len = Returned (arr', len') ->
         Forall (fun val => depth val <= D)%nat arr'.
Proof.
  intros Hrec. induction remaining as [| r IH]; intros i arr len Harr.
  - simpl. split; [done |]. by intros ?? [= <- <-].
  - cbn [sliceLoop]. destruct (arr !! i) as [val |] eqn:Hval; [| by split].
    destruct (isEmptyEntry val).
    + case_bool_decide; [| by split]. apply IH.
      repeat apply Forall_app_2; auto using Forall_take, Forall_drop.
    + assert (Hd : (depth val <= D)%nat).
      { rewrite Forall_forall in Harr. apply Harr.
        by apply list_elem_of_lookup_2 in Hval. }
      destruct (Hrec val Hd) as [Hfuel Hbound].
      destruct (rec val) as [val' | |]; [| by split | done].
      case_bool_decide; [| by split]. apply IH.
      apply Forall_insert; [done |]. specialize (Hbound val' eq_refl). lia.
Qed.

Lemma mapLoop_fuel rec D (m : list (string * Value)) :
  (forall val, (depth val <= D)%nat ->
     rec val <> OutOfFuel
     /\ forall r, rec val = Returned r -> (depth r <= depth val)%nat) ->
  Forall (fun entry => depth entry.2 <= D)%nat m ->
  mapLoop rec m <> OutOfFuel
  /\ forall m', mapLoop rec m = Returned m' ->
       Forall (fun entry => depth entry.2 <= D)%nat m'.
Proof.
  intros Hrec. induction 1 as [| [k val] m Hval _ [IH1 IH2]].
  - simpl. split; [done |]. by intros ? [= <-].
  - cbn [mapLoop]. simpl in Hval. destruct (Hrec val Hval) as [Hfuel Hbound].
    assert (He : mapEntry rec val <> OutOfFuel
                 /\ forall val', mapEntry rec val = Returned (Some val') ->
                      (depth val' <= D)%nat).
    { unfold mapEntry. destruct val as [| s | v | m0]; [by split | ..].
      - destruct (rec (VScalar s)) as [r | |]; [| by split | done].
        split; [done |]. intros val'. specialize (Hbound r eq_refl).
        destruct r as [| | [|] |]; intros [= <-]; lia.
      - destruct (rec (VSlice v)) as [r | |]; [| by split | done].
        split; [done |]. intros val'. specialize (Hbound r eq_refl).
        destruct r as [| | [|] |]; intros [= <-]; lia.
      - destruct (rec (VMap m0)) as [r | |]; [| by split | done].
        specialize (Hbound r eq_refl).
        destruct r as [| | |m1]; try by split.
        split; [done |]. intros val'. case_bool_decide; intros [= <-]. lia. }
    destruct He as [He1 He2].
    destruct (mapEntry rec val) as [kept | |]; [| by split | done].
    destruct (mapLoop rec m) as [rest' | |]; [| by split | done].
    split; [done |]. intros m' [= <-]. specialize (IH2 rest' eq_refl).
    destruct kept as [val' |]; [| done]. constructor; [| done].
    simpl. by apply He2.
Qed.

(** Fuel beyond the nesting depth is enough, and the result is not
    deeper than the object. *)
Lemma removeEmptyInterfaces_fuel fuel :
  forall obj, (depth obj < fuel)%nat ->
    removeEmptyInterfaces fuel obj <> OutOfFuel
    /\ forall r, removeEmptyInterfaces fuel obj = Returned r ->
         (depth r <= depth obj)%nat.
Proof.
  induction fuel as [| fuel IH]; intros obj Hd; [lia |].
  destruct obj as [| s | v | m]; cbn [removeEmptyInterfaces].
  - split; [done |]. by intros ? [= <-].
  - split; [done |]. by intros ? [= <-].
  - simpl in Hd.
    set (D := foldr (fun val d => Nat.max (depth val) d) 0%nat v) in *.
    destruct (sliceLoop_fuel (removeEmptyInterfaces fuel) D (length v)) with
      (i := 0%nat) (arr := v) (len := length v) as [H1 H2].
    + intros val Hval. apply IH. lia.
    + apply Forall_forall. intros val Hin. by apply depth_elem.
    + destruct (sliceLoop _ _ _ _ _) as [[arr' len'] | |]; [| by split | done].
      split; [done |]. intros r [= <-]. simpl.
      specialize (H2 arr' len' eq_refl).
      apply le_n_S, depth_bound. by apply Forall_take.
  - simpl in Hd.
    set (D := foldr (fun entry d => Nat.max (depth entry.2) d) 0%nat m) in *.
    destruct (mapLoop_fuel (removeEmptyInterfaces fuel) D m) as [H1 H2].
    + intros val Hval. apply IH. lia.
    + apply Forall_forall. intros entry Hin. by apply depth_entry_elem.
    + destruct (mapLoop _ _) as [m' | |]; [| by split | done].
      split; [done |]. intros r [= <-]. simpl.
      apply le_n_S, depth_entry_bound. by apply H2.
Qed.

(** X21. A slice that holds nil or an empty map anywhere but in its last
    place makes removeEmptyInterfaces panic: the loop shortens the slice
    while it keeps running over the original length, and a later
    iteration indexes or re-slices beyond the new end. For no amount of
    fuel does the call return, and with fuel beyond the nesting depth it
    panics. *)
Theorem removeEmptyInterfaces_panics_on_inner_empty
    (fuel : nat) (before : list Value) (empty next : Value) (after : list Value) :
  isEmptyEntry empty = true ->
  isReturned (removeEmptyInterfaces fuel
                (VSlice (before ++ empty :: next :: after))) = false
  /\ ((depth (VSlice (before ++ empty :: next :: after)) < fuel)%nat ->
      removeEmptyInterfaces fuel (VSlice (before ++ empty :: next :: after))
      = Panicked).
Proof.
  intros He.
  assert (Hnot : isReturned (removeEmptyInterfaces fuel
                   (VSlice (before ++ empty :: next :: after))) = false).
  { destruct fuel as [| fuel]; [done |]. cbn [removeEmptyInterfaces].
    pose proof (sliceLoop_empty_entry (removeEmptyInterfaces fuel)
                  (length (before ++ empty :: next :: after)) 0
                  (before ++ empty :: next :: after)
                  (length (before ++ empty :: next :: after))
                  (length before) empty) as H.
    destruct (sliceLoop _ _ _ _ _) as [[arr len] | |]; try done.
    exfalso. discriminate H; try done; try lia.
    - rewrite length_app. simpl. lia.
    - by rewrite list_lookup_middle. }
  split; [done |]. intros Hfuel.
  destruct (removeEmptyInterfaces_fuel fuel _ Hfuel) as [Hf _].
  by destruct (removeEmptyInterfaces fuel _).
Qed.

Lemma removeEmptyInterfaces_panics_witness :
  isReturned (removeEmptyInterfaces 2 (VSlice ([] ++ VNil :: VScalar "a" :: [])))
  = false
  /\ ((depth (VSlice ([] ++ VNil :: VScalar "a" :: [])) < 2)%nat ->
      removeEmptyInterfaces 2 (VSlice ([] ++ VNil :: VScalar "a" :: []))
      = Panicked).
Proof.
  apply (removeEmptyInterfaces_panics_on_inner_empty 2 [] VNil (VScalar "a") []).
  reflexivity.
Defined.

(** The loop on a slice whose entries up to the last are not empty. *)
Lemma sliceLoop_clean rec (todo : list Value) :
  forall (done tail : list Value),
    Forall (fun val => isEmptyEntry val = false) todo ->
    tail = [] \/ (exists x, tail = [x] /\ isEmptyEntry x = true) ->
    match processAll rec todo with
    | Returned rs =>
        exists arr len,
          sliceLoop rec (length todo + length tail) (length done)
            (done ++ todo ++ tail) (length (done ++ todo ++ tail))
          = Returned (arr, len)
          /\ take len arr = done ++ rs
    | Panicked =>
        sliceLoop rec (length todo + length tail) (length done)
          (done ++ todo ++ tail) (length (done ++ todo ++ tail)) = Panicked
    | OutOfFuel =>
        sliceLoop rec (length todo + length tail) (length done)
          (done ++ todo ++ tail) (length (done ++ todo ++ tail)) = OutOfFuel
    end.
Proof.
  induction todo as [| val todo IH]; intros done tail Htodo Htail.
  - cbn [processAll length app Nat.add].
    destruct Htail as [-> | (x & -> & Hx)].
    + simpl. exists (done ++ []), (length (done ++ [])). split; [done |].
      by rewrite take_ge, app_nil_r.
    + cbn [length sliceLoop]. rewrite list_lookup_middle by done. rewrite Hx.
      rewrite bool_decide_eq_true_2 by (rewrite length_app; simpl; lia).
      eexists _, _. split; [done |].
      rewrite length_app. cbn [length].
      replace (length done + 1 - 1)%nat with (length done) by lia.
      rewrite (take_app_length done [x]), take_app_length.
      by rewrite app_nil_r.
  - apply Forall_cons in Htodo as [Hval Htodo].
    cbn [processAll length Nat.add sliceLoop].
    rewrite (list_lookup_middle done (todo ++ tail) val) by done.
    rewrite Hval.
    destruct (rec val) as [val' | |]; [| done | done].
    assert (Hlt : (length done < length (done ++ (val :: todo) ++ tail))%nat).
    { rewrite length_app. simpl. lia. }
    rewrite (bool_decide_eq_true_2 _ Hlt).
    specialize (IH (done ++ [val']) tail Htodo Htail).
    assert (Harr : <[length done := val']> (done ++ val :: todo ++ tail)
                   = (done ++ [val']) ++ todo ++ tail).
    { rewrite insert_app_r_alt by lia. rewrite Nat.sub_diag. simpl.
      by rewrite <- app_assoc. }
    assert (Hlen : length (done ++ (val :: todo) ++ tail)
                   = length ((done ++ [val']) ++ todo ++ tail)).
    { rewrite !length_app. simpl. rewrite ?length_app. simpl. lia. }
    assert (Hdone : S (length done) = length (done ++ [val'])).
    { rewrite length_app. simpl. lia. }
    cbn [app]. rewrite Harr.
    change (done ++ val :: todo ++ tail) with (done ++ (val :: todo) ++ tail).
    rewrite Hlen, Hdone.
    destruct (processAll rec todo) as [rs | |]; [| done | done].
    destruct IH as (arr & len & -> & Htake). exists arr, len.
    split; [done |]. by rewrite Htake, <- app_assoc.
Qed.

(** X22. On a slice whose entries are neither nil nor an empty map,
    except possibly the last one, removeEmptyInterfaces treats the
    entries in turn and returns them in their order, without the last
    entry when that one is nil or an empty map; it panics exactly when
    the treatment of an entry does. *)
Theorem removeEmptyInterfaces_clean_slice
    (fuel : nat) (entries last : list Value) :
  Forall (fun val => isEmptyEntry val = false) entries ->
  last = [] \/ (exists x, last = [x] /\ isEmptyEntry x = true) ->
  removeEmptyInterfaces (S fuel) (VSlice (entries ++ last))
  = match processAll (removeEmptyInterfaces fuel) entries with
    | Returned rs => Returned (VSlice rs)
    | Panicked => Panicked
    | OutOfFuel => OutOfFuel
    end.
Proof.
  intros Hentries Hlast. cbn [removeEmptyInterfaces].
  pose proof (sliceLoop_clean (removeEmptyInterfaces fuel) entries [] last
                Hentries Hlast) as H.
  cbn [app length] in H. rewrite length_app.
  rewrite length_app in H.
  destruct (processAll (removeEmptyInterfaces fuel) entries) as [rs | |].
  - destruct H as (arr & len & -> & ->). done.
  - by rewrite H.
  - by rewrite H.
Qed.

Lemma removeEmptyInterfaces_clean_slice_witness :
  removeEmptyInterfaces 3 (VSlice ([VScalar "a"; VMap [("k", VNil)]] ++ [VNil]))
  = match processAll (removeEmptyInterfaces 2)
            [VScalar "a"; VMap [("k", VNil)]] with
    | Returned rs => Returned (VSlice rs)
    | Panicked => Panicked
    | OutOfFuel => OutOfFuel
    end.
Proof.
  apply (removeEmptyInterfaces_clean_slice 2
           [VScalar "a"; VMap [("k", VNil)]] [VNil]).
  - repeat constructor.
  - right. by exists VNil.
Defined.

Lemma removeEmptyInterfaces_kind fuel obj r :
  removeEmptyInterfaces fuel obj = Returned r ->
  match obj with
  | VNil => r = VNil
  | VScalar s => r = VScalar s
  | VSlice _ => exists v, r = VSlice v
  | VMap _ => exists m, r = VMap m
  end.
Proof.
  destruct fuel as [| fuel]; [done |]. destruct obj; cbn [removeEmptyInterfaces].
  - by intros [= <-].
  - by intros [= <-].
  - destruct (sliceLoop _ _ _ _ _) as [[arr len] | |]; [| done | done].
    intros [= <-]. eauto.
  - destruct (mapLoop _ _) as [m' | |]; [| done | done]. intros [= <-]. eauto.
Qed.

Lemma mapLoop_no_empty fuel (m m' : list (string * Value)) :
  mapLoop (removeEmptyInterfaces fuel) m = Returned m' ->
  Forall (fun entry => entry.2 <> VNil /\ entry.2 <> VMap []
                          /\ entry.2 <> VSlice []) m'
  /\ m'.*1 `sublist_of` m.*1.
Proof.
  revert m'. induction m as [| [k val] m IH]; intros m'.
  - intros [= <-]. split; constructor.
  - cbn [mapLoop].
    destruct (mapEntry (removeEmptyInterfaces fuel) val) as [kept | |] eqn:Hk;
      [| done | done].
    destruct (mapLoop (removeEmptyInterfaces fuel) m) as [rest' | |];
      [| done | done].
    destruct (IH rest' eq_refl) as [IH1 IH2]. intros [= <-].
    destruct kept as [val' |].
    + split; [| by apply sublist_skip]. constructor; [| done]. simpl.
      unfold mapEntry in Hk. destruct val as [| s | v | m0]; [done | ..].
      * destruct (removeEmptyInterfaces fuel (VScalar s)) as [r | |] eqn:Hr;
          [| done | done].
        apply removeEmptyInterfaces_kind in Hr as ->. injection Hk as <-.
        by repeat split.
      * destruct (removeEmptyInterfaces fuel (VSlice v)) as [r | |] eqn:Hr;
          [| done | done].
        apply removeEmptyInterfaces_kind in Hr as [v' ->].
        destruct v' as [| x v']; [done |]. injection Hk as <-. by repeat split.
      * destruct (removeEmptyInterfaces fuel (VMap m0)) as [r | |] eqn:Hr;
          [| done | done].
        apply removeEmptyInterfaces_kind in Hr as [m1 ->].
        case_bool_decide as Hl; [done |]. injection Hk as <-.
        destruct m1; [done |]. by repeat split.
    + split; [done |]. by apply sublist_cons.
Qed.

(** X23. When removeEmptyInterfaces returns from a map, the result is a
    map whose keys are keys of the original in their order, and no key
    is left with nil, an empty map or an empty slice as its value. *)
Theorem removeEmptyInterfaces_map_no_empty
    (fuel : nat) (m : list (string * Value)) (r : Value) :
  removeEmptyInterfaces fuel (VMap m) = Returned r ->
  exists m',
    r = VMap m'
    /\ Forall (fun entry => entry.2 <> VNil /\ entry.2 <> VMap []
                            /\ entry.2 <> VSlice []) m'
    /\ m'.*1 `sublist_of` m.*1.
Proof.
  destruct fuel as [| fuel]; [done |]. cbn [removeEmptyInterfaces].
  destruct (mapLoop (removeEmptyInterfaces fuel) m) as [m' | |] eqn:Hm;
    [| done | done].
  intros [= <-]. exists m'. split; [done |].
  apply (mapLoop_no_empty fuel m m' Hm).
Qed.

Lemma removeEmptyInterfaces_map_witness :
  exists m',
    VMap [("d", VScalar "x")] = VMap m'
    /\ Forall (fun entry => entry.2 <> VNil /\ entry.2 <> VMap []
                            /\ entry.2 <> VSlice []) m'
    /\ m'.*1 `sublist_of`
         [("a", VNil); ("b", VMap [("c", VSlice [VMap []])]);
          ("d", VScalar "x")].*1.
Proof.
  apply (removeEmptyInterfaces_map_no_empty 4). reflexivity.
Defined.

(** *** The security-context option and the controller loop *)

(** X24. The SecurityContext option panics exactly when it has a
    container security context to attach and the pod has no container.
    When the service asks for nothing (not privileged, no usable user
    directive, no capabilities, no groups) the pod spec is returned as it
    is. Otherwise the context goes to the first container only, and the
    volumes and the other containers are left alone. *)
Theorem SecurityContext_option_edges
    (service : ServiceConfig) (capabilities : Capabilities) (podSpec : PodSpec) :
  (SecurityContext service capabilities podSpec = None <->
     securityContextOf service capabilities <> emptySecurityContext
     /\ Containers podSpec = [])
  /\ (securityContextOf service capabilities = emptySecurityContext ->
      GroupAdd service = None -> FsGroup service = 0 ->
      SecurityContext service capabilities podSpec = Some podSpec)
  /\ (forall podSpec',
        SecurityContext service capabilities podSpec = Some podSpec' ->
        Volumes podSpec' = Volumes podSpec
        /\ length (Containers podSpec') = length (Containers podSpec)
        /\ tail (Containers podSpec') = tail (Containers podSpec)
        /\ (securityContextOf service capabilities <> emptySecurityContext ->
            cSecurityContext <$> head (Containers podSpec')
            = Some (Some (securityContextOf service capabilities)))).
Proof.
  unfold SecurityContext, attachSecurityContexts.
  set (sc := securityContextOf service capabilities).
  split; [| split].
  - case_bool_decide as Hsc.
    + split; [done | by intros []].
    + destruct (Containers podSpec); [by split | split; [done | by intros []]].
  - intros Hsc Hg Hf. rewrite bool_decide_eq_true_2 by done.
    unfold podSecurityContextOf. rewrite Hg, Hf. simpl. by destruct podSpec.
  - intros podSpec'. case_bool_decide as Hsc.
    + intros [= <-]. simpl. by repeat split.
    + destruct (Containers podSpec) as [| c cs]; [done |].
      intros [= <-]. simpl. by repeat split.
Qed.

Lemma SecurityContext_option_edges_witness :
  SecurityContext (sampleService "web" EmptyString) noCapabilities (podSpecOf [])
  = Some (podSpecOf []).
Proof.
  apply (proj1 (proj2 (SecurityContext_option_edges
                         (sampleService "web" EmptyString) noCapabilities
                         (podSpecOf [])))); reflexivity.
Defined.

(** X25. The controller loop keeps the length of the list. It returns
    an error exactly when the adapter fails on some object; it then has
    treated the objects before the first failing one like a successful
    pass, holds the failing object as the adapter left it, and has not
    touched any object behind it. *)
Theorem updateSupportedController_error_prefix
    (UpdateController : Object -> Object * option string)
    (hasVolumes : bool) (adjust : Object -> Object) (objects : list Object) :
  let result := updateSupportedController UpdateController hasVolumes adjust
                  objects in
  length result.1 = length objects
  /\ (result.2 = None <->
      Forall (fun obj => (UpdateController obj).2 = None) objects)
  /\ (forall err, result.2 = Some err ->
        exists before obj after cause,
          objects = before ++ obj :: after
          /\ Forall (fun obj => (UpdateController obj).2 = None) before
          /\ (UpdateController obj).2 = Some cause
          /\ err = "k.UpdateController failed: " +:+ cause
          /\ result.1
             = map (fun obj => if hasVolumes
                               then adjust (UpdateController obj).1
                               else (UpdateController obj).1) before
               ++ (UpdateController obj).1 :: after).
Proof.
  induction objects as [| obj objects (IH1 & IH2 & IH3)]; cbn zeta.
  - simpl. split; [done |]. split; [by split |]. by intros err [=].
  - cbn [updateSupportedController].
    destruct (UpdateController obj) as [obj' [cause |]] eqn:EU.
    + cbn [fst snd]. split; [done |]. split.
      * split; [done |]. intros Hall. apply Forall_cons in Hall as [Hobj _].
        by rewrite EU in Hobj.
      * intros err [= <-]. exists [], obj, objects, cause.
        rewrite EU. by repeat split.
    + cbn zeta in IH1, IH2, IH3.
      destruct (updateSupportedController UpdateController hasVolumes adjust
                  objects) as [rest' err'].
      cbn [fst snd] in *. split; [simpl; by rewrite IH1 |]. split.
      * rewrite IH2, Forall_cons, EU. simpl. tauto.
      * intros err Herr. destruct (IH3 err Herr)
          as (before & bad & after & cause & -> & Hbefore & Hbad & -> & ->).
        exists (obj :: before), bad, after, cause.
        split; [done |]. split; [constructor; [by rewrite EU | done] |].
        split; [done |]. split; [done |]. simpl. by rewrite EU.
Qed.

Lemma updateSupportedController_error_witness :
  exists before obj after cause,
    [ sampleDeployment "web" []; sampleDeployment "bad" [];
      sampleDeployment "db" [] ] = before ++ obj :: after
    /\ Forall (fun obj => (sampleUpdateController obj).2 = None) before
    /\ (sampleUpdateController obj).2 = Some cause
    /\ "k.UpdateController failed: Unknown restart policy"
       = "k.UpdateController failed: " +:+ cause
    /\ (updateSupportedController sampleUpdateController true
          adjustForVolumesMultipleContainers
          [ sampleDeployment "web" []; sampleDeployment "bad" [];
            sampleDeployment "db" [] ]).1
       = map (fun obj => if true
                         then adjustForVolumesMultipleContainers
                                (sampleUpdateController obj).1
                         else (sampleUpdateController obj).1) before
         ++ (sampleUpdateController obj).1 :: after.
Proof.
  apply (proj2 (proj2 (updateSupportedController_error_prefix
           sampleUpdateController true adjustForVolumesMultipleContainers
           [ sampleDeployment "web" []; sampleDeployment "bad" [];
             sampleDeployment "db" [] ]))).
  vm_compute. reflexivity.
Defined.

(** *** Duplicates under unambiguous keys *)

Lemma dedupFrom_covers existK objs obj k :
  obj ∈ objs -> objKey obj = Some k ->
  seenKey existK k = true
  \/ exists obj', obj' ∈ dedupFrom existK objs /\ objKey obj' = Some k.
Proof.
  intros Hin Hk. revert existK.
  induction objs as [| x objs IH]; intros existK; [by apply elem_of_nil in Hin |].
  cbn [dedupFrom]. apply elem_of_cons in Hin as [<- | Hin].
  - rewrite Hk. destruct (seenKey existK k) eqn:Es; [by left |].
    right. exists obj. split; [by left | done].
  - destruct (objKey x) as [kx |] eqn:Ex.
    + destruct (seenKey existK kx) eqn:Es; [by apply IH |].
      destruct (IH Hin (<[kx := true]> existK)) as [Hseen | (obj' & Hobj' & Hk')].
      * rewrite seenKey_insert in Hseen.
        apply orb_true_iff in Hseen as [Heq%bool_decide_eq_true | Hseen];
          [| by left].
        subst kx. right. exists x. split; [by left | done].
      * right. exists obj'. split; [by right | done].
    + destruct (IH Hin existK) as [Hseen | (obj' & Hobj' & Hk')]; [by left |].
      right. exists obj'. split; [by right | done].
Qed.

(** X26. When no two objects of the list that differ in group, version,
    kind, namespace or name share a key (as is the case for objects of
    one kind in one namespace), removing duplicates loses no identity:
    for every object of the input, an object of the same identity is
    kept. *)
Theorem RemoveDupObjects_keeps_every_identity (L : list Object) :
  (forall o1 o2, o1 ∈ L -> o2 ∈ L -> objKey o1 = objKey o2 ->
                 objIdentity o1 = objIdentity o2) ->
  forall obj, obj ∈ L ->
    exists kept, kept ∈ RemoveDupObjects L
                 /\ objIdentity kept = objIdentity obj.
Proof.
  intros Hinj obj Hin. rewrite RemoveDupObjects_dedupFrom.
  destruct (objKey obj) as [k |] eqn:Hk.
  - destruct (dedupFrom_covers ∅ L obj k Hin Hk) as [Hseen | (kept & Hkept & Hk')].
    + unfold seenKey in Hseen. by rewrite lookup_empty in Hseen.
    + exists kept. split; [done |]. apply Hinj; [| done | congruence].
      eapply elem_of_sublist; [exact Hkept | apply dedupFrom_sublist].
  - exists obj. split; [| done]. apply dedupFrom_keeps_unkeyed; [done |].
    unfold objKey in Hk. by destruct (objMeta obj).
Qed.

Lemma same_kind_namespace_keys (gvk : GroupVersionKind) (ns : string) o1 o2 :
  objGVK o1 = gvk -> objGVK o2 = gvk ->
  Namespace <$> objMeta o1 = Some ns -> Namespace <$> objMeta o2 = Some ns ->
  objKey o1 = objKey o2 -> objIdentity o1 = objIdentity o2.
Proof.
  unfold objKey, objIdentity, dupKey.
  intros G1 G2 N1 N2.
  destruct (objMeta o1) as [m1 |], (objMeta o2) as [m2 |]; try done.
  simpl in *. injection N1 as N1. injection N2 as N2.
  rewrite G1, G2, N1, N2. intros [= Heq].
  apply (inj (String.app _)) in Heq. apply (inj (String.app _)) in Heq.
  by rewrite Heq.
Qed.

Lemma RemoveDupObjects_keeps_every_identity_witness :
  exists kept,
    kept ∈ RemoveDupObjects
             [ Resource gvkConfigMap (metaOf "web-env" "default");
               Resource gvkConfigMap (metaOf "db-env" "default");
               Resource gvkConfigMap (metaOf "web-env" "default") ]
    /\ objIdentity kept
       = objIdentity (Resource gvkConfigMap (metaOf "db-env" "default")).
Proof.
  apply RemoveDupObjects_keeps_every_identity.
  - intros o1 o2 H1 H2.
    apply (same_kind_namespace_keys gvkConfigMap "default").
    + repeat (apply elem_of_cons in H1 as [-> | H1]; [reflexivity |]).
      by apply elem_of_nil in H1.
    + repeat (apply elem_of_cons in H2 as [-> | H2]; [reflexivity |]).
      by apply elem_of_nil in H2.
    + repeat (apply elem_of_cons in H1 as [-> | H1]; [reflexivity |]).
      by apply elem_of_nil in H1.
    + repeat (apply elem_of_cons in H2 as [-> | H2]; [reflexivity |]).
      by apply elem_of_nil in H2.
  - right. left.
Defined.

(** *** Instances *)

Lemma removeTargetDeployment_total_witness :
  isDeploymentNamed "cache" (sampleDeployment "web" []) = false.
Proof.
  destruct (removeTargetDeployment_total
              [ sampleDeployment "cache" []; sampleDeployment "web" [];
                sampleDeployment "cache" [] ] "cache")
    as (out & Hrun & -> & _ & Hnone).
  apply Hnone. vm_compute. left.
Defined.

Lemma FormatEnvName_panics_iff_witness :
  FormatEnvName "../" "web" = None.
Proof. apply (proj2 (FormatEnvName_panics_iff "../" "web")). reflexivity. Defined.

Lemma KomposeObjectToServiceConfigGroupMapping_groups_witness :
  default []
    ((KomposeObjectToServiceConfigGroupMapping "kompose.service.group" "volume"
        ["web"; "db"]
        (<["web" := {| gsConfig := sampleService "web" EmptyString;
                       VolList := ["data"]; InGroup := false |}]>
           (<["db" := {| gsConfig := sampleService "db" EmptyString;
                         VolList := ["data"]; InGroup := false |}]> ∅))).1
       !! "data")
  = groupMembers "kompose.service.group" "volume"
      (<["web" := {| gsConfig := sampleService "web" EmptyString;
                     VolList := ["data"]; InGroup := false |}]>
         (<["db" := {| gsConfig := sampleService "db" EmptyString;
                       VolList := ["data"]; InGroup := false |}]> ∅))
      "data" (SortedKeys ["web"; "db"]).
Proof.
  apply (proj1 (KomposeObjectToServiceConfigGroupMapping_groups
                  "kompose.service.group" "volume" ["web"; "db"] _) "data").
  discriminate.
Defined.

(** Two services with the same volume list end up in one group, the
    one whose name sorts first in front. *)
Example grouping_by_volume :
  map (fun s => (svcName (gsConfig s), InGroup s))
    (groupMembers "kompose.service.group" "volume"
       (<["web" := {| gsConfig := sampleService "web" EmptyString;
                      VolList := ["data"]; InGroup := false |}]>
          (<["db" := {| gsConfig := sampleService "db" EmptyString;
                        VolList := ["data"]; InGroup := false |}]> ∅))
       "data" (SortedKeys ["web"; "db"]))
  = [("db", true); ("web", true)].
Proof. vm_compute. reflexivity. Qed.
